(** * HasuraClient: schema synchronisation, retries and balance aggregation

    A shallow embedding of [packages/api-cardano-db-hasura/src/HasuraClient.ts]
    and the properties of its schema synchroniser, its circulating-supply
    producer and its per-asset balance aggregation. *)

From Stdlib Require Import Ascii String ZArith QArith Decimal DecimalString DecimalZ.
From stdpp Require Import base option list strings.

Local Open Scope string_scope.
Local Open Scope Z_scope.
Local Open Scope list_scope.
#[local] Set Warnings "-clear-no-such-hyp".

(** ** Errors *)

(** A JavaScript [Error], as far as the client looks at it: its message. *)
Record Error := mkError { message : string }.

#[global] Instance Error_eq_dec : EqDecision Error.
Proof. solve_decision. Defined.

(** ** Arbitrary-precision decimals *)

Module BigNumber.

(** Modelled from the spec: the [bignumber.js] package is a dependency that
    is not part of the sources. Its values are exact arbitrary-precision
    decimal integers with decimal-string inputs and outputs. Integers are all
    that is modelled, since ledger quantities are integers: a string that is
    no decimal integer gives the not-a-number value, which absorbs every
    operation. *)
Inductive t := NaN | Int (z : Z).

#[global] Instance t_eq_dec : EqDecision t.
Proof. solve_decision. Defined.

(** The digits of an unsigned decimal; the empty string is no number. *)
Definition digits (s : string) : option Z :=
  match s with
  | EmptyString => None
  | String _ _ => Z.of_uint <$> NilEmpty.uint_of_string s
  end.

(** [new BigNumber(s)] *)
Definition of_string (s : string) : t :=
  match s with
  | String "-"%char s' => from_option (fun z => Int (- z)) NaN (digits s')
  | _ => from_option Int NaN (digits s)
  end.

(** [new BigNumber(v)] for a value that may be [null]. *)
Definition of_nullable (v : option string) : t :=
  from_option of_string NaN v.

Definition plus (a b : t) : t :=
  match a, b with
  | Int x, Int y => Int (x + y)
  | _, _ => NaN
  end.

Definition minus (a b : t) : t :=
  match a, b with
  | Int x, Int y => Int (x - y)
  | _, _ => NaN
  end.

Definition toString (a : t) : string :=
  match a with
  | NaN => "NaN"
  | Int z => NilEmpty.string_of_int (Z.to_int z)
  end.

End BigNumber.

(** ** Insertion-ordered maps

    A JavaScript [Map] keeps its entries in the order in which their keys were
    first set, and [values()] walks them in that order. *)

Module JsMap.

Definition t (V : Type) := list (string * V).

Definition empty {V} : t V := [].

Fixpoint get {V} (k : string) (m : t V) : option V :=
  match m with
  | [] => None
  | (k', v) :: m' => if decide (k' = k) then Some v else get k m'
  end.

(** [set] overwrites the value of a key in place and appends a new key. *)
Fixpoint set {V} (k : string) (v : V) (m : t V) : t V :=
  match m with
  | [] => [(k, v)]
  | (k', v') :: m' =>
      if decide (k' = k) then (k, v) :: m' else (k', v') :: set k v m'
  end.

Definition keys {V} (m : t V) : list string := m.*1.
Definition values {V} (m : t V) : list V := m.*2.

End JsMap.

(** ** Payment-address summaries *)

Record Asset := mkAsset {
  assetId : string;
  assetName : option string;
  description : option string;
  fingerprint : option string;
  logo : option string;
  metadataHash : option string;
  name : option string;
  ticker : option string;
  url : option string;
  policyId : string
}.

Record Token := mkToken {
  token_asset : Asset;
  token_quantity : string
}.

Record AssetBalance := mkAssetBalance {
  asset : Asset;
  quantity : string
}.

Record TransactionOutput := mkTransactionOutput {
  value : string;
  tokens : list Token
}.

Record PaymentAddressSummary := mkPaymentAddressSummary {
  assetBalances : list AssetBalance;
  utxosCount : Z
}.

(** The data of the [PaymentAddressSummary] query: the [utxos] rows and the
    [utxos_aggregate.aggregate.count] number. *)
Record PaymentAddressSummaryData := mkPaymentAddressSummaryData {
  utxos : list TransactionOutput;
  utxos_aggregate_count : Z
}.

#[global] Instance Asset_eq_dec : EqDecision Asset.
Proof. solve_decision. Defined.
#[global] Instance Token_eq_dec : EqDecision Token.
Proof. solve_decision. Defined.
#[global] Instance AssetBalance_eq_dec : EqDecision AssetBalance.
Proof. solve_decision. Defined.

(** The entry the client makes up for the base currency. *)
Definition ada_asset : Asset :=
  {| assetId := "ada"; assetName := Some "ada"; description := None;
     fingerprint := None; logo := None; metadataHash := None;
     name := Some "ada"; ticker := None; url := None; policyId := "" |}.

(** [{ ...current, ...{ quantity: new BigNumber(current.quantity).plus(new BigNumber(q)).toString() } }] *)
Definition add_quantity (current : AssetBalance) (q : string) : AssetBalance :=
  {| asset := asset current;
     quantity := BigNumber.toString
                   (BigNumber.plus (BigNumber.of_string (quantity current))
                                   (BigNumber.of_string q)) |}.

(** [token as unknown as AssetBalance]: the same object, read at another type. *)
Definition Token_as_AssetBalance (token : Token) : AssetBalance :=
  {| asset := token_asset token; quantity := token_quantity token |}.

(** The body of the inner loop, for one token; [map.has(id)] and the
    [map.get(id)] that follows it are the one lookup of the [match]. *)
Definition add_token (map : JsMap.t AssetBalance) (token : Token)
  : JsMap.t AssetBalance :=
  let id := assetId (token_asset token) in
  match JsMap.get id map with
  | Some current => JsMap.set id (add_quantity current (token_quantity token)) map
  | None => JsMap.set id (Token_as_AssetBalance token) map
  end.

(** The body of the outer loop, for one utxo: its value goes to the key
    ["ada"], then its tokens go to the keys of their asset ids. *)
Definition add_utxo (map : JsMap.t AssetBalance) (utxo : TransactionOutput)
  : JsMap.t AssetBalance :=
  let map1 :=
    match JsMap.get "ada" map with
    | Some current => JsMap.set "ada" (add_quantity current (value utxo)) map
    | None => JsMap.set "ada" {| asset := ada_asset; quantity := value utxo |} map
    end in
  fold_left add_token (tokens utxo) map1.

Definition aggregate (l : list TransactionOutput) : JsMap.t AssetBalance :=
  fold_left add_utxo l JsMap.empty.

(** [getPaymentAddressSummary], from the data of its query on. *)
Definition getPaymentAddressSummary (data : PaymentAddressSummaryData)
  : PaymentAddressSummary :=
  {| assetBalances := JsMap.values (aggregate (utxos data));
     utxosCount := utxos_aggregate_count data |}.

Definition token_of (id q : string) : Token :=
  {| token_asset :=
       {| assetId := id; assetName := None; description := None;
          fingerprint := None; logo := None; metadataHash := None;
          name := None; ticker := None; url := None; policyId := "" |};
     token_quantity := q |}.

Definition example_utxos : list TransactionOutput :=
  [ {| value := "1000000"; tokens := [token_of "A" "5"] |};
    {| value := "2000000"; tokens := [token_of "A" "7"; token_of "B" "1"] |} ].

(** ** The aggregation as one fold over entries *)

(** One step of either loop: the entry [e.2] arrives under the key [e.1]. *)
Definition add_entry (map : JsMap.t AssetBalance) (e : string * AssetBalance)
  : JsMap.t AssetBalance :=
  match JsMap.get e.1 map with
  | Some current => JsMap.set e.1 (add_quantity current (quantity e.2)) map
  | None => JsMap.set e.1 e.2 map
  end.

Definition token_entry (t : Token) : string * AssetBalance :=
  (assetId (token_asset t), Token_as_AssetBalance t).

Definition utxo_entries (u : TransactionOutput) : list (string * AssetBalance) :=
  ("ada", {| asset := ada_asset; quantity := value u |})
    :: (token_entry <$> tokens u).

(** What [get] answers once one more entry arrived under its key. *)
Definition merge (o : option AssetBalance) (b : AssetBalance)
  : option AssetBalance :=
  Some (match o with
        | Some current => add_quantity current (quantity b)
        | None => b
        end).

(** The entries that arrive under the key [k], in their order. *)
Definition at_key (k : string) (es : list (string * AssetBalance))
  : list AssetBalance :=
  (filter (fun e => e.1 = k) es).*2.

Definition sum_quantities (qs : list string) : BigNumber.t :=
  foldr (fun q acc => BigNumber.plus (BigNumber.of_string q) acc)
        (BigNumber.Int 0) qs.

(** The quantity string an entry carries after the quantities [qs] arrived:
    the first one is stored as it is, and from the second on the stored
    string is the printed sum. *)
Definition merged_quantity (qs : list string) : string :=
  match qs with
  | [q] => q
  | _ => BigNumber.toString (sum_quantities qs)
  end.

(** ** What the aggregation is measured against *)

(** A quantity as the ledger supplies it: an unsigned decimal integer. *)
Definition unsigned_decimal (s : string) : Prop := is_Some (BigNumber.digits s).

Definition decimal_value (s : string) : Z := default 0 (BigNumber.digits s).

(** A decimal without superfluous leading zeros prints as itself. *)
Definition canonical (s : string) : Prop :=
  BigNumber.toString (BigNumber.of_string s) = s.

Definition all_tokens (l : list TransactionOutput) : list Token := l ≫= tokens.

Definition all_quantities (l : list TransactionOutput) : list string :=
  l ≫= fun u => value u :: (token_quantity <$> tokens u).

Definition well_formed (l : list TransactionOutput) : Prop :=
  Forall unsigned_decimal (all_quantities l).

(** No token goes by the key that is reserved for the base currency. *)
Definition no_ada_token (l : list TransactionOutput) : Prop :=
  Forall (fun t => assetId (token_asset t) <> "ada") (all_tokens l).

(** The asset ids of an input: the base currency as soon as there is a record,
    and the ids of the tokens. *)
Definition asset_ids (l : list TransactionOutput) : list string :=
  (if l is [] then [] else ["ada"]) ++ (assetId ∘ token_asset <$> all_tokens l).

(** The quantities an input contributes to an asset id. *)
Definition contributions (id : string) (l : list TransactionOutput) : list string :=
  if decide (id = "ada") then value <$> l
  else token_quantity
         <$> filter (fun t => assetId (token_asset t) = id) (all_tokens l).

Definition exact_sum (qs : list string) : Z :=
  foldr (fun q acc => decimal_value q + acc) 0 qs.

(** Two inputs hold the same records: the records come in another order, and
    so may the tokens of each record. *)
Definition same_record (u u' : TransactionOutput) : Prop :=
  value u = value u' /\ tokens u ≡ₚ tokens u'.

Definition reordered (l l' : list TransactionOutput) : Prop :=
  exists l1, l ≡ₚ l1 /\ Forall2 same_record l1 l'.

(** Tokens of one asset id describe their asset alike, as rows joined to one
    asset table do. *)
Definition consistent_assets (l : list TransactionOutput) : Prop :=
  Forall (fun t => Forall (fun t' =>
    assetId (token_asset t) = assetId (token_asset t') ->
    token_asset t = token_asset t') (all_tokens l)) (all_tokens l).

Definition balance_key (b : AssetBalance) : string * string :=
  (assetId (asset b), quantity b).

Definition balances_of (l : list TransactionOutput) (count : Z) : list AssetBalance :=
  assetBalances (getPaymentAddressSummary
                   {| utxos := l; utxos_aggregate_count := count |}).

Definition example_utxos_reordered : list TransactionOutput :=
  [ {| value := "2000000"; tokens := [token_of "B" "1"; token_of "A" "7"] |};
    {| value := "1000000"; tokens := [token_of "A" "5"] |} ].

(** ** Asynchronous code

    The client runs on one thread. An [async] function runs without
    interruption up to its next [await] of an outside event, gives the thread
    away there, and goes on when the event arrives. A program is the tree of
    what it does next; the outside events it waits for are the end of a child
    process, a timer, and the answer of the introspection. *)

Inductive LogLevel := Debug | Info | Warn | Err.

(** What [exec] hands to its callback. *)
Record ExecResult := mkExecResult {
  exec_error : option Error;
  stdout : string
}.

(** The types of a schema by their names; a type is kept by its kind. *)
Inductive TypeKind := SCALAR | OBJECT | INTERFACE | UNION | ENUM | INPUT_OBJECT.

Record GraphQLSchema := mkGraphQLSchema {
  typeMap : list (string * TypeKind)
}.

(** [schema.getType(name)] *)
Definition getType (schema : GraphQLSchema) (name : string) : option TypeKind :=
  JsMap.get name (typeMap schema).

(** How [introspectSchema(executor)] ends: the executor's [fetch] fails, which
    the executor logs and throws again; or the introspection fails past the
    executor; or the remote schema arrives. *)
Inductive Introspection :=
| FetchFailed (e : Error)
| IntrospectionFailed (e : Error)
| Introspected (schema : GraphQLSchema).

Inductive proc (A : Type) : Type :=
| Ret (a : A)
| Throw (e : Error)
| GetApplying (k : bool -> proc A)
| SetApplying (b : bool) (k : proc A)
| Log (level : LogLevel) (msg : string) (k : proc A)
| Report (operation : string) (attemptNumber retriesLeft : nat) (e : Error)
         (k : proc A)
| Exec (cmdline : string) (k : ExecResult -> proc A)
| Sleep (delay : Q) (k : proc A)
| Introspect (k : Introspection -> proc A).

Arguments Ret {A} a.
Arguments Throw {A} e.
Arguments GetApplying {A} k.
Arguments SetApplying {A} b k.
Arguments Log {A} level msg k.
Arguments Report {A} operation attemptNumber retriesLeft e k.
Arguments Exec {A} cmdline k.
Arguments Sleep {A} delay k.
Arguments Introspect {A} k.

Fixpoint bind {A B} (m : proc A) (f : A -> proc B) : proc B :=
  match m with
  | Ret a => f a
  | Throw e => Throw e
  | GetApplying k => GetApplying (fun b => bind (k b) f)
  | SetApplying b k => SetApplying b (bind k f)
  | Log level msg k => Log level msg (bind k f)
  | Report op n rest e k => Report op n rest e (bind k f)
  | Exec cmdline k => Exec cmdline (fun r => bind (k r) f)
  | Sleep delay k => Sleep delay (bind k f)
  | Introspect k => Introspect (fun r => bind (k r) f)
  end.

#[global] Instance proc_ret : MRet proc := @Ret.
#[global] Instance proc_bind : MBind proc := fun A B f m => bind m f.

(** [try { ... } catch]: the program that ends normally with how [m] ended. *)
Fixpoint try_ {A} (m : proc A) : proc (Error + A) :=
  match m with
  | Ret a => Ret (inr a)
  | Throw e => Ret (inl e)
  | GetApplying k => GetApplying (fun b => try_ (k b))
  | SetApplying b k => SetApplying b (try_ k)
  | Log level msg k => Log level msg (try_ k)
  | Report op n rest e k => Report op n rest e (try_ k)
  | Exec cmdline k => Exec cmdline (fun r => try_ (k r))
  | Sleep delay k => Sleep delay (try_ k)
  | Introspect k => Introspect (fun r => try_ (k r))
  end.

(** *** The state of a client and what can be seen of a run *)

Inductive Event :=
| EvExec (cmdline : string) (r : ExecResult)
| EvLog (level : LogLevel) (msg : string)
| EvReport (operation : string) (attemptNumber retriesLeft : nat) (e : Error)
| EvSleep (delay : Q)
| EvIntrospect (r : Introspection).

(** The [applyingSchemaAndMetadata] field of the client, and the events of
    the process so far, the oldest first. *)
Record World := mkWorld {
  applyingSchemaAndMetadata : bool;
  trace : list Event
}.

Definition set_applying (b : bool) (w : World) : World :=
  {| applyingSchemaAndMetadata := b; trace := trace w |}.

Definition emit (ev : Event) (w : World) : World :=
  {| applyingSchemaAndMetadata := applyingSchemaAndMetadata w;
     trace := trace w ++ [ev] |}.

(** A client that has just been constructed. *)
Definition constructed : World :=
  {| applyingSchemaAndMetadata := false; trace := [] |}.

Definition is_exec (ev : Event) : Prop :=
  match ev with EvExec _ _ => True | _ => False end.

#[global] Instance is_exec_dec ev : Decision (is_exec ev).
Proof. destruct ev; simpl; apply _. Defined.

Definition is_introspect (ev : Event) : Prop :=
  match ev with EvIntrospect _ => True | _ => False end.

#[global] Instance is_introspect_dec ev : Decision (is_introspect ev).
Proof. destruct ev; simpl; apply _. Defined.

(** The outside of the client: what the n-th child process of the run answers
    to its command line, and how the n-th introspection ends. *)
Record Env := mkEnv {
  exec_result : nat -> string -> ExecResult;
  introspection : nat -> Introspection
}.

(** *** One call at a time

    [run] takes a program to its end, every awaited event arriving at once. *)
Fixpoint run {A} (env : Env) (m : proc A) (w : World) : (Error + A) * World :=
  match m with
  | Ret a => (inr a, w)
  | Throw e => (inl e, w)
  | GetApplying k => run env (k (applyingSchemaAndMetadata w)) w
  | SetApplying b k => run env k (set_applying b w)
  | Log level msg k => run env k (emit (EvLog level msg) w)
  | Report op n rest e k => run env k (emit (EvReport op n rest e) w)
  | Exec cmdline k =>
      let r := exec_result env (length (filter is_exec (trace w))) cmdline in
      run env (k r) (emit (EvExec cmdline r) w)
  | Sleep delay k => run env k (emit (EvSleep delay) w)
  | Introspect k =>
      let r := introspection env (length (filter is_introspect (trace w))) in
      run env (k r) (emit (EvIntrospect r) w)
  end.

(** *** Calls in flight

    [advance] takes a program up to its next [await] of an outside event. *)
Inductive Pending (A : Type) : Type :=
| Finished (r : Error + A)
| OnExec (cmdline : string) (k : ExecResult -> proc A)
| OnTimer (delay : Q) (k : proc A)
| OnIntrospection (k : Introspection -> proc A).

Arguments Finished {A} r.
Arguments OnExec {A} cmdline k.
Arguments OnTimer {A} delay k.
Arguments OnIntrospection {A} k.

Fixpoint advance {A} (m : proc A) (w : World) : Pending A * World :=
  match m with
  | Ret a => (Finished (inr a), w)
  | Throw e => (Finished (inl e), w)
  | GetApplying k => advance (k (applyingSchemaAndMetadata w)) w
  | SetApplying b k => advance k (set_applying b w)
  | Log level msg k => advance k (emit (EvLog level msg) w)
  | Report op n rest e k => advance k (emit (EvReport op n rest e) w)
  | Exec cmdline k => (OnExec cmdline k, w)
  | Sleep delay k => (OnTimer delay k, w)
  | Introspect k => (OnIntrospection k, w)
  end.

(** The outside events. *)
Inductive Wake :=
| Exited (r : ExecResult)
| Fired
| Answered (r : Introspection).

(** A call goes on when the event it waits for arrives; another event is not
    for it. *)
Definition resume {A} (p : Pending A) (wk : Wake) (w : World) : Pending A * World :=
  match p, wk with
  | OnExec cmdline k, Exited r => advance (k r) (emit (EvExec cmdline r) w)
  | OnTimer delay k, Fired => advance k (emit (EvSleep delay) w)
  | OnIntrospection k, Answered r => advance (k r) (emit (EvIntrospect r) w)
  | _, _ => (p, w)
  end.

Definition in_flight {A} (p : Pending A) : Prop :=
  match p with Finished _ => False | _ => True end.

(** The calls of [applySchemaAndMetadata] that were made on one client, in
    the order of their start, and the state they share. *)
Record System := mkSystem {
  world : World;
  calls : list (Pending unit)
}.

(** Starting a call runs it up to its first [await]. *)
Definition call (m : proc unit) (s : System) : System :=
  let (p, w) := advance m (world s) in
  {| world := w; calls := calls s ++ [p] |}.

(** An outside event arrives for the i-th call. *)
Definition wake (s : System) (i : nat) (wk : Wake) : System :=
  match calls s !! i with
  | Some p =>
      let (p', w) := resume p wk (world s) in
      {| world := w; calls := <[i := p']> (calls s) |}
  | None => s
  end.

Definition wakes (s : System) (schedule : list (nat * Wake)) : System :=
  fold_left (fun s iw => wake s iw.1 iw.2) schedule s.

(** ** Retries *)

Record FailedAttemptError := mkFailedAttemptError {
  failure : Error;
  attemptNumber : nat;
  retriesLeft : nat
}.

Record Options := mkOptions {
  factor : Q;
  retries : nat;
  onFailedAttempt : FailedAttemptError -> proc unit
}.

(** Modelled from the spec: [p-retry] is a dependency that is not part of the
    sources. The retrier invokes the operation; on each failed attempt, the
    final one too, it invokes the failure callback before it decides whether
    to retry; it waits the base delay times [factor ^ (attempt - 1)] and
    invokes the operation again, up to [retries + 1] attempts in all; when
    all attempts fail the last error goes to the caller unchanged. The delay
    is counted in base delays. *)
Fixpoint retry_from {A} (input : nat -> proc A) (options : Options)
    (remaining attempt : nat) : proc A :=
  r ← try_ (input attempt);
  match r with
  | inr v => Ret v
  | inl e =>
      onFailedAttempt options
        {| failure := e; attemptNumber := attempt; retriesLeft := remaining |};;
      match remaining with
      | O => Throw e
      | S remaining' =>
          Sleep (factor options ^ (Z.of_nat attempt - 1))
                (retry_from input options remaining' (S attempt))
      end
  end.

Definition pRetry {A} (input : nat -> proc A) (options : Options) : proc A :=
  retry_from input options (retries options) 1.

(** Modelled from the spec: [util.onFailedAttemptFor] is in the util package,
    which is not part of the sources. The callback it makes reports the
    failed attempt of the named operation for observability. *)
Definition onFailedAttemptFor (operation : string)
  : FailedAttemptError -> proc unit :=
  fun error =>
    Report operation (attemptNumber error) (retriesLeft error) (failure error)
           (Ret tt).

(** ** The client *)

(** The fields of a client that never change; [project] is the resolved path
    of the [hasura/project] directory. *)
Record HasuraClient := mkHasuraClient {
  hasuraCliPath : string;
  hasuraUri : string;
  project : string
}.

Definition cmdline (this : HasuraClient) (command : string) : string :=
  (hasuraCliPath this ++ " --skip-update-check --project " ++ project this
     ++ " --endpoint " ++ hasuraUri this ++ " " ++ command)%string.

(** [hasuraCli]: the callback of [exec] rejects on an error, logs the output
    in either case, and resolves, which a rejected promise ignores. *)
Definition hasuraCli (this : HasuraClient) (command : string) : proc unit :=
  Exec (cmdline this command) (fun r =>
    match exec_error r with
    | Some error => Log Debug (stdout r) (Throw error)
    | None => Log Debug (stdout r) (Ret tt)
    end).

Definition migrate_down : string := "migrate apply --down all".
Definition migrate_up : string := "migrate apply --up all".
Definition metadata_clear : string := "metadata clear".
Definition metadata_apply : string := "metadata apply".

Definition migrations (this : HasuraClient) : proc unit :=
  hasuraCli this migrate_down;; hasuraCli this migrate_up.

Definition metadata (this : HasuraClient) : proc unit :=
  hasuraCli this metadata_clear;; hasuraCli this metadata_apply.

Definition retry_options (operation : string) : Options :=
  {| factor := 7 # 4; retries := 9;
     onFailedAttempt := onFailedAttemptFor operation |}.

Definition applySchemaAndMetadata (this : HasuraClient) : proc unit :=
  GetApplying (fun applying =>
    if applying then Ret tt
    else
      SetApplying true
        (pRetry (fun _ => migrations this)
                (retry_options "Applying PostgreSQL schema migrations");;
         pRetry (fun _ => metadata this)
                (retry_options "Applying Hasura metadata");;
         SetApplying false (Ret tt))).

(** *** The schema *)

Definition coreTypes : list string :=
  ["Block"; "Cardano"; "Epoch"; "Block"; "Transaction"].

(** Modelled from the spec: [wrapSchema] is from a dependency that is not part
    of the sources. It wraps the introspected shape into a schema object,
    which has the types of that shape. *)
Definition wrapSchema (schema : GraphQLSchema) : GraphQLSchema := schema.

(** The loop over [coreTypes]. *)
Fixpoint check_types (ts : list string) (schema : GraphQLSchema)
  : proc GraphQLSchema :=
  match ts with
  | [] => Ret schema
  | t :: ts' =>
      match getType schema t with
      | None => Throw (mkError ("Remote schema is missing " ++ t)%string)
      | Some _ => check_types ts' schema
      end
  end.

Definition buildHasuraSchema (this : HasuraClient) : proc GraphQLSchema :=
  Introspect (fun r =>
    match r with
    | FetchFailed error => Log Err (message error) (Throw error)
    | IntrospectionFailed error => Throw error
    | Introspected remote => check_types coreTypes (wrapSchema remote)
    end).

(** The types the client requires of the remote schema. *)
Definition required_types : list string :=
  ["Block"; "Cardano"; "Epoch"; "Transaction"].

(** ** The circulating supply

    A call of an [async] function never throws: it returns a promise, and
    what the body throws settles that promise as rejected. A [try] block
    catches what is thrown while it runs, not how a promise it returns
    settles later. *)

Module Js.

Inductive Promise (A : Type) : Type :=
| Fulfilled (v : A)
| Rejected (e : Error).

Inductive Completion (A : Type) : Type :=
| Normal (v : A)
| Abrupt (e : Error).

Arguments Fulfilled {A} v.
Arguments Rejected {A} e.
Arguments Normal {A} v.
Arguments Abrupt {A} e.

(** [await p] inside a body, then the rest of the body. *)
Definition await {A B} (p : Promise A) (k : A -> Completion B) : Completion B :=
  match p with
  | Fulfilled v => k v
  | Rejected e => Abrupt e
  end.

(** The call of an [async] function whose body completes as [body]. *)
Definition async {A} (body : Completion A) : Completion (Promise A) :=
  Normal (match body with
          | Normal v => Fulfilled v
          | Abrupt e => Rejected e
          end).

(** [return f()]: the value of the call is what the block returns. *)
Definition returning {A B} (f : A -> B) (call : Completion A) : Completion B :=
  match call with
  | Normal v => Normal (f v)
  | Abrupt e => Abrupt e
  end.

(** [try { block } catch (error) { handler }], where the handler may log. *)
Definition try_catch {A L} (block : Completion A)
    (handler : Error -> Completion A * list L) : Completion A * list L :=
  match block with
  | Normal v => (Normal v, [])
  | Abrupt e => handler e
  end.

(** What the caller gets who awaits the result of a call: a thrown error as
    it is, a returned promise as it settles, and [undefined] as it is. *)
Definition awaited {A} (c : Completion (option (Promise A))) : Promise (option A) :=
  match c with
  | Abrupt e => Rejected e
  | Normal None => Fulfilled None
  | Normal (Some (Fulfilled v)) => Fulfilled (Some v)
  | Normal (Some (Rejected e)) => Rejected e
  end.

End Js.

(** The sums of the three aggregates of the supply query; a sum over no row
    is [null]. *)
Record SupplyData := mkSupplyData {
  rewards_sum_amount : option string;
  utxos_sum_value : option string;
  withdrawals_sum_amount : option string
}.

Definition getAdaCirculatingSupply (result : Js.Promise SupplyData)
  : Js.Completion (Js.Promise string) :=
  Js.async
    (Js.await result (fun data =>
       let rewards := BigNumber.of_nullable (rewards_sum_amount data) in
       let utxos := BigNumber.of_nullable (utxos_sum_value data) in
       let withdrawals := BigNumber.of_nullable (withdrawals_sum_amount data) in
       let withdrawableRewards := BigNumber.minus rewards withdrawals in
       Js.Normal (BigNumber.toString (BigNumber.plus utxos withdrawableRewards)))).

Definition not_ready_message : string :=
  "currentEpoch is only available when close to the chain tip. This is expected during the initial chain-sync.".

(** The producer of [adaCirculatingSupplyFetcher], with what it logs: it
    returns the promise of [getAdaCirculatingSupply] from inside its [try]
    block, without awaiting it. *)
Definition adaCirculatingSupply_producer (result : Js.Promise SupplyData)
  : Js.Completion (option (Js.Promise string)) * list (LogLevel * string) :=
  Js.try_catch
    (Js.returning Some (getAdaCirculatingSupply result))
    (fun error =>
       if decide (message error <> not_ready_message)
       then (Js.Abrupt error, [])
       else (Js.Normal None, [(Debug, message error)])).

(** ** What the synchroniser is measured against *)

(** The command lines that ran, each with whether it succeeded. *)
Definition exec_log (tr : list Event) : list (string * bool) :=
  omap (fun ev => match ev with
                  | EvExec c r => Some (c, bool_decide (exec_error r = None))
                  | _ => None
                  end) tr.

(** An outside in which every child process fails with the error [e]. *)
Definition always_failing (e : Error) : Env :=
  {| exec_result := fun _ _ => {| exec_error := Some e; stdout := "" |};
     introspection := fun _ => IntrospectionFailed e |}.

(** An outside in which every child process succeeds. *)
Definition healthy (remote : GraphQLSchema) : Env :=
  {| exec_result := fun _ _ => {| exec_error := None; stdout := "" |};
     introspection := fun _ => Introspected remote |}.

Definition example_client : HasuraClient :=
  {| hasuraCliPath := "hasura"; hasuraUri := "http://localhost:8090";
     project := "/app/hasura/project" |}.

(** Where a call in flight ends when every event it awaits arrives at once. *)
Definition settle {A} (env : Env) (p : Pending A) (w : World) : (Error + A) * World :=
  match p with
  | Finished r => (r, w)
  | OnExec c k =>
      let r := exec_result env (length (filter is_exec (trace w))) c in
      run env (k r) (emit (EvExec c r) w)
  | OnTimer d k => run env k (emit (EvSleep d) w)
  | OnIntrospection k =>
      let r := introspection env (length (filter is_introspect (trace w))) in
      run env (k r) (emit (EvIntrospect r) w)
  end.

Definition succeeded {A} (r : Error + A) : bool :=
  if r is inr _ then true else false.

(** One attempt at a unit of two commands: the first command runs, and the
    second runs when the first succeeded; the attempt succeeds when both
    did. *)
Inductive unit_attempt (c1 c2 : string) : list (string * bool) -> bool -> Prop :=
| first_fails : unit_attempt c1 c2 [(c1, false)] false
| second_fails : unit_attempt c1 c2 [(c1, true); (c2, false)] false
| both_succeed : unit_attempt c1 c2 [(c1, true); (c2, true)] true.

(** A unit that is retried as a whole, in at most [n] attempts: every attempt
    starts over with the first command, an attempt follows only a failed
    attempt, and the unit fails when the n-th attempt fails. *)
Inductive retried_unit (c1 c2 : string)
  : nat -> list (string * bool) -> bool -> Prop :=
| unit_succeeds n t :
    unit_attempt c1 c2 t true -> retried_unit c1 c2 (S n) t true
| unit_gives_up t :
    unit_attempt c1 c2 t false -> retried_unit c1 c2 1 t false
| unit_retries n t ts ok :
    unit_attempt c1 c2 t false -> retried_unit c1 c2 (S n) ts ok ->
    retried_unit c1 c2 (S (S n)) (t ++ ts) ok.

(** The commands of one run of [applySchemaAndMetadata]: the migrations unit
    to its end, and only when it succeeded, and after it, the metadata
    unit. *)
Definition apply_sequence (this : HasuraClient)
    (log : list (string * bool)) (ok : bool) : Prop :=
  exists t1 t2 ok1,
    log = t1 ++ t2
    /\ retried_unit (cmdline this migrate_down) (cmdline this migrate_up) 10 t1 ok1
    /\ if ok1
       then retried_unit (cmdline this metadata_clear)
                         (cmdline this metadata_apply) 10 t2 ok
       else t2 = [] /\ ok = false.

(** [count] attempts in a row, numbered from [n], that all fail: each runs the
    operation once and reports its error, a wait separates two attempts, and
    [e] is the error of the last of them. The client goes from [w] to [w']. *)
Inductive failed_attempts {A} (env : Env) (input : nat -> proc A)
    (operation : string) : nat -> nat -> World -> World -> Error -> Prop :=
| last_attempt n w w1 e :
    run env (input n) w = (inl e, w1) ->
    failed_attempts env input operation n 1 w
                    (emit (EvReport operation n 0 e) w1) e
| earlier_attempt n count w w1 e w' e' :
    run env (input n) w = (inl e, w1) ->
    failed_attempts env input operation (S n) (S count)
                    (emit (EvSleep ((7 # 4) ^ (Z.of_nat n - 1)))
                          (emit (EvReport operation n (S count) e) w1))
                    w' e' ->
    failed_attempts env input operation n (S (S count)) w w' e'.

(** An outside in which the second command of every attempt fails until the
    child process of the given number. *)
Definition flaky (good_from : nat) : Env :=
  {| exec_result := fun n c =>
       {| exec_error :=
            if decide (n < good_from /\ Nat.odd n)%nat
            then Some {| message := "database is starting up" |} else None;
          stdout := "" |};
     introspection := fun _ => Introspected {| typeMap := [] |} |}.

Definition example_exit : ExecResult := {| exec_error := None; stdout := "ok" |}.

(** A remote schema without the [Transaction] type, and one with every type
    the client requires. *)
Definition schema_without_transaction : GraphQLSchema :=
  {| typeMap := [("Block", OBJECT); ("Cardano", OBJECT); ("Epoch", OBJECT);
                 ("Int", SCALAR)] |}.

Definition complete_schema : GraphQLSchema :=
  {| typeMap := [("Block", OBJECT); ("Cardano", OBJECT); ("Epoch", OBJECT);
                 ("Transaction", OBJECT); ("Int", SCALAR)] |}.

Definition missing_type_error (t : string) : Error :=
  {| message := ("Remote schema is missing " ++ t)%string |}.

(** The events of a call whose roll-back fails at every attempt: ten child
    processes that fail with [e], and the nine waits between them. *)
Definition ten_failures (e : Error) : list (nat * Wake) :=
  let failed := Exited {| exec_error := Some e; stdout := "" |} in
  concat (replicate 9 [(0%nat, failed); (0%nat, Fired)]) ++ [(0%nat, failed)].

(** ** More of the client *)

(** [initialize], with the [initialize] of the two fetchers, whose class is
    in the util package, taken as they are; the value of the call is what it
    leaves in [this.schema] when it resolves. *)
Definition initialize (this : HasuraClient)
    (currentProtocolVersionFetcher_initialize : proc unit)
    (adaCirculatingSupplyFetcher_initialize : proc unit) : proc GraphQLSchema :=
  Log Info "Initializing"
    (applySchemaAndMetadata this;;
     schema ← pRetry (fun _ => buildHasuraSchema this)
                     (retry_options "Fetching Hasura schema via introspection");
     Log Info "Initialized"
       (currentProtocolVersionFetcher_initialize;;
        adaCirculatingSupplyFetcher_initialize;;
        Ret schema)).

(** The options of the retried introspection. *)
Definition schema_options : Options :=
  retry_options "Fetching Hasura schema via introspection".

(** ** More of what the client is measured against *)

(** A store whose schema lacks a required type at every introspection. *)
Definition never_valid (env : Env) : Prop :=
  forall n, exists remote t,
    introspection env n = Introspected remote
    /\ t ∈ required_types /\ getType remote t = None.


(** The quantities that arrive under a key, in the order of the input: the
    value of every record under ["ada"], and the quantity of every token
    under the id of its asset. *)
Definition arrivals (id : string) (l : list TransactionOutput) : list string :=
  l ≫= fun u =>
    (if decide ("ada" = id) then [value u] else [])
    ++ (token_quantity
          <$> filter (fun t => assetId (token_asset t) = id) (tokens u)).

(** The keys that the two loops set, in the order in which they set them. *)
Definition keys_in_order (l : list TransactionOutput) : list string :=
  l ≫= fun u => "ada" :: (assetId ∘ token_asset <$> tokens u).

(** Every string of a list once, where it first occurs, after those of [seen]. *)
Fixpoint first_occurrences_from (seen xs : list string) : list string :=
  match xs with
  | [] => seen
  | x :: xs' =>
      first_occurrences_from (if decide (x ∈ seen) then seen else seen ++ [x]) xs'
  end.

Definition first_occurrences (xs : list string) : list string :=
  first_occurrences_from [] xs.

(** The command lines of a client. *)
Definition command_lines (this : HasuraClient) : list string :=
  cmdline this <$> [migrate_down; migrate_up; metadata_clear; metadata_apply].

Definition introspections (w : World) : nat :=
  length (filter is_introspect (trace w)).

(** An input of the aggregation with a token under the reserved key. *)
Definition example_utxos_with_ada_token : list TransactionOutput :=
  [ {| value := "1000000"; tokens := [token_of "ada" "5"; token_of "A" "2"] |};
    {| value := "2000000"; tokens := [token_of "A" "7"] |} ].

(** ** Views and invariants that the proofs go by *)

(** The entry of a key after the fold, from the entries that arrived. *)
Definition entry_of (bs : list AssetBalance) : option AssetBalance :=
  match bs with
  | [] => None
  | b :: _ => Some {| asset := asset b;
                      quantity := merged_quantity (quantity <$> bs) |}
  end.

(** A program that leaves the flag alone. *)
Inductive flag_free {A} : proc A -> Prop :=
| ff_ret a : flag_free (Ret a)
| ff_throw e : flag_free (Throw e)
| ff_get k : (forall b, flag_free (k b)) -> flag_free (GetApplying k)
| ff_log lv msg k : flag_free k -> flag_free (Log lv msg k)
| ff_report op n rest e k : flag_free k -> flag_free (Report op n rest e k)
| ff_exec c k : (forall r, flag_free (k r)) -> flag_free (Exec c k)
| ff_sleep d k : flag_free k -> flag_free (Sleep d k)
| ff_introspect k : (forall r, flag_free (k r)) -> flag_free (Introspect k).

(** The two retried units and the reset of the flag, which a call runs once
    it has set the flag. *)
Definition critical_section (this : HasuraClient) : proc unit :=
  pRetry (fun _ => migrations this)
         (retry_options "Applying PostgreSQL schema migrations");;
  pRetry (fun _ => metadata this)
         (retry_options "Applying Hasura metadata");;
  SetApplying false (Ret tt).

(** A program that awaits nothing. *)
Inductive quiet {A} : proc A -> Prop :=
| q_ret a : quiet (Ret a)
| q_throw e : quiet (Throw e)
| q_get k : (forall b, quiet (k b)) -> quiet (GetApplying k)
| q_set b k : quiet k -> quiet (SetApplying b k)
| q_log lv msg k : quiet k -> quiet (Log lv msg k)
| q_report op n rest e k : quiet k -> quiet (Report op n rest e k).

(** A program that writes the flag only once it awaits nothing any more. *)
Inductive holds_flag {A} : proc A -> Prop :=
| h_ret a : holds_flag (Ret a)
| h_throw e : holds_flag (Throw e)
| h_get k : (forall b, holds_flag (k b)) -> holds_flag (GetApplying k)
| h_set b k : quiet k -> holds_flag (SetApplying b k)
| h_log lv msg k : holds_flag k -> holds_flag (Log lv msg k)
| h_report op n rest e k : holds_flag k -> holds_flag (Report op n rest e k)
| h_exec c k : (forall r, holds_flag (k r)) -> holds_flag (Exec c k)
| h_sleep d k : holds_flag k -> holds_flag (Sleep d k)
| h_introspect k : (forall r, holds_flag (k r)) -> holds_flag (Introspect k).

Definition pending_holds_flag {A} (p : Pending A) : Prop :=
  match p with
  | Finished _ => True
  | OnExec _ k => forall r, holds_flag (k r)
  | OnTimer _ k => holds_flag k
  | OnIntrospection k => forall r, holds_flag (k r)
  end.

(** The state of a client on which one call was made. *)
Definition one_call_invariant (s : System) : Prop :=
  exists p, calls s = [p]
            /\ (in_flight p ->
                applyingSchemaAndMetadata (world s) = true
                /\ pending_holds_flag p).

(** A finished call beside the calls of [s]. *)
Definition beside (s : System) (r : Error + unit) : System :=
  {| world := world s; calls := calls s ++ [Finished r] |}.

(** The types of a list that a schema lacks. *)
Definition missing (schema : GraphQLSchema) (ts : list string) : list string :=
  filter (fun t => getType schema t = None) ts.

(** A program that never writes the flag but to clear it as its last step,
    and that resolves by that step only. *)
Inductive releases_flag : proc unit -> Prop :=
| rf_throw e : releases_flag (Throw e)
| rf_release : releases_flag (SetApplying false (Ret tt))
| rf_get k : (forall b, releases_flag (k b)) -> releases_flag (GetApplying k)
| rf_log lv msg k : releases_flag k -> releases_flag (Log lv msg k)
| rf_report op n rest e k : releases_flag k -> releases_flag (Report op n rest e k)
| rf_exec c k : (forall r, releases_flag (k r)) -> releases_flag (Exec c k)
| rf_sleep d k : releases_flag k -> releases_flag (Sleep d k)
| rf_introspect k : (forall r, releases_flag (k r)) -> releases_flag (Introspect k).

Definition pending_releases_flag (p : Pending unit) : Prop :=
  match p with
  | Finished _ => True
  | OnExec _ k => forall r, releases_flag (k r)
  | OnTimer _ k => releases_flag k
  | OnIntrospection k => forall r, releases_flag (k r)
  end.

(** The flag is clear when the call has resolved, and set otherwise. *)
Definition flag_as_settled (p : Pending unit) (w : World) : Prop :=
  applyingSchemaAndMetadata w
  = if p is Finished (inr _) then false else true.

Definition one_call_releases (s : System) : Prop :=
  exists p, calls s = [p]
            /\ flag_as_settled p (world s) /\ pending_releases_flag p.

(** * Properties *)

(** ** Arbitrary-precision decimals *)

Module BigNumberFacts.
Import BigNumber.

Lemma string_of_uint_head (d : uint) :
  d <> Nil ->
  exists c s, NilEmpty.string_of_uint d = String c s /\ c <> "-"%char.
Proof.
  destruct d; intros Hd; try congruence; simpl; eexists _, _; split;
    try reflexivity; discriminate.
Qed.

Lemma digits_to_uint (p : positive) :
  digits (NilEmpty.string_of_uint (Pos.to_uint p)) = Some (Z.pos p).
Proof.
  unfold digits.
  destruct (string_of_uint_head (Pos.to_uint p)) as (c & s & Hs & _).
  { intros H. apply (f_equal Pos.of_uint) in H.
    rewrite DecimalPos.Unsigned.of_to in H. discriminate. }
  rewrite Hs, <- Hs, NilEmpty.usu. simpl. f_equal.
  unfold Z.of_uint. now rewrite DecimalPos.Unsigned.of_to.
Qed.

Lemma of_string_toString (a : t) : of_string (toString a) = a.
Proof.
  destruct a as [|[|p|p]]; try reflexivity.
  - cbn [toString Z.to_int NilEmpty.string_of_int].
    pose proof (digits_to_uint p) as Hp.
    destruct (string_of_uint_head (Pos.to_uint p)) as (c & s & Hs & Hc).
    { intros H. apply (f_equal Pos.of_uint) in H.
      rewrite DecimalPos.Unsigned.of_to in H. discriminate. }
    rewrite Hs in *. unfold of_string.
    destruct (Ascii.eqb_spec c "-"%char) as [->|_]; [congruence|].
    assert (Hgen : forall c0 s0, c0 <> "-"%char ->
      match String c0 s0 with
      | String "-"%char s' => from_option (fun z => Int (- z)) NaN (digits s')
      | _ => from_option Int NaN (digits (String c0 s0))
      end = from_option Int NaN (digits (String c0 s0))).
    { intros c0 s0 Hc0.
      destruct c0 as [[] [] [] [] [] [] [] []]; try reflexivity; congruence. }
    rewrite Hgen by assumption. now rewrite Hp.
  - cbn [toString Z.to_int NilEmpty.string_of_int of_string].
    now rewrite digits_to_uint.
Qed.

Lemma plus_comm (a b : t) : plus a b = plus b a.
Proof. destruct a, b; simpl; try reflexivity. f_equal. lia. Qed.

Lemma plus_assoc (a b c : t) : plus a (plus b c) = plus (plus a b) c.
Proof. destruct a, b, c; simpl; try reflexivity. f_equal. lia. Qed.

End BigNumberFacts.

(** ** Insertion-ordered maps *)

Module JsMapFacts.
Import JsMap.

Section WithValues.
Context {V : Type}.
Implicit Types (m : t V) (k : string) (v : V).

Lemma get_set_eq m k v : get k (set k v m) = Some v.
Proof.
  induction m as [|[k' v'] m IH]; simpl.
  - by rewrite decide_True.
  - destruct (decide (k' = k)) as [->|Hne]; simpl.
    + by rewrite decide_True.
    + by rewrite decide_False.
Qed.

Lemma get_set_ne m k k' v : k <> k' -> get k' (set k v m) = get k' m.
Proof.
  intros Hne. induction m as [|[k0 v0] m IH]; simpl.
  - by rewrite decide_False.
  - destruct (decide (k0 = k)) as [->|Hne0]; simpl.
    + by rewrite !decide_False.
    + by rewrite IH.
Qed.

Lemma get_set m k k' v :
  get k' (set k v m) = if decide (k = k') then Some v else get k' m.
Proof.
  destruct (decide (k = k')) as [->|Hne];
    [apply get_set_eq | by apply get_set_ne].
Qed.

Lemma get_None m k : get k m = None <-> k ∉ keys m.
Proof.
  unfold keys. induction m as [|[k' v'] m IH]; simpl.
  - split; [intros _; apply not_elem_of_nil | done].
  - rewrite not_elem_of_cons. destruct (decide (k' = k)) as [->|Hne].
    + split; [done | by intros [? _]].
    + rewrite IH. split; [intros H; split; [congruence | done] | by intros [_ ?]].
Qed.

Lemma get_Some_elem_of m k v : get k m = Some v -> (k, v) ∈ m.
Proof.
  induction m as [|[k' v'] m IH]; simpl; [done|].
  destruct (decide (k' = k)) as [->|Hne].
  - intros [= ->]. apply list_elem_of_here.
  - intros H. apply list_elem_of_further. auto.
Qed.

Lemma elem_of_get m k v : NoDup (keys m) -> (k, v) ∈ m -> get k m = Some v.
Proof.
  unfold keys. induction m as [|[k' v'] m IH]; simpl.
  - intros _ H. by apply elem_of_nil in H.
  - rewrite NoDup_cons. intros [Hk Hnd] [[= -> ->]|Hin]%elem_of_cons.
    + by rewrite decide_True.
    + rewrite decide_False; [auto|].
      intros ->. apply Hk. apply list_elem_of_fmap. by exists (k, v).
Qed.

Lemma keys_set m k v :
  keys (set k v m) = if decide (k ∈ keys m) then keys m else keys m ++ [k].
Proof.
  unfold keys. induction m as [|[k' v'] m IH].
  - rewrite decide_False; [done | apply not_elem_of_nil].
  - cbn [set]. destruct (decide (k' = k)) as [->|Hne].
    + rewrite decide_True; [done | apply list_elem_of_here].
    + rewrite !fmap_cons, IH. cbn [fst].
      destruct (decide (k ∈ m.*1)) as [Hin|Hnin].
      * rewrite decide_True; [done | by apply list_elem_of_further].
      * rewrite decide_False; [done|].
        rewrite not_elem_of_cons. by split.
Qed.

Lemma NoDup_keys_set m k v : NoDup (keys m) -> NoDup (keys (set k v m)).
Proof.
  intros Hnd. rewrite keys_set. case_decide; [done|].
  apply NoDup_app. split_and!; [done | | apply NoDup_singleton].
  intros x Hx ->%list_elem_of_singleton. done.
Qed.

Lemma elem_of_keys_set m k k' v :
  k' ∈ keys (set k v m) <-> k' = k \/ k' ∈ keys m.
Proof.
  rewrite keys_set. case_decide.
  - naive_solver.
  - rewrite elem_of_app, list_elem_of_singleton. naive_solver.
Qed.

Lemma NoDup_entries m : NoDup (keys m) -> NoDup m.
Proof. apply NoDup_fmap_1. Qed.

(** Two maps that answer every [get] alike hold the same entries. *)
Lemma get_ext_Permutation m m' :
  NoDup (keys m) -> NoDup (keys m') ->
  (forall k, get k m = get k m') -> m ≡ₚ m'.
Proof.
  intros Hm Hm' Hget. apply NoDup_Permutation; try by apply NoDup_entries.
  intros [k v]. split; intros Hin.
  - apply get_Some_elem_of. rewrite <- Hget. by apply elem_of_get.
  - apply get_Some_elem_of. rewrite Hget. by apply elem_of_get.
Qed.

End WithValues.

Lemma get_fmap {V W} (f : V -> W) (m : t V) k :
  get k (prod_map id f <$> m) = f <$> get k m.
Proof.
  induction m as [|[k' v'] m IH]; simpl; [done|]. by case_decide.
Qed.

Lemma keys_fmap {V W} (f : V -> W) (m : t V) :
  keys (prod_map id f <$> m) = keys m.
Proof.
  unfold keys. rewrite <- list_fmap_compose. apply list_fmap_ext.
  by intros ? [].
Qed.

End JsMapFacts.

(** ** The balance aggregation *)

Module AggregateFacts.
Import JsMap JsMapFacts BigNumber BigNumberFacts.

Implicit Types (m : JsMap.t AssetBalance) (e : string * AssetBalance).
Implicit Types (k : string) (b : AssetBalance) (l : list TransactionOutput).

Lemma add_token_entry m (t : Token) : add_token m t = add_entry m (token_entry t).
Proof. reflexivity. Qed.

Lemma fold_add_token m (ts : list Token) :
  fold_left add_token ts m = fold_left add_entry (token_entry <$> ts) m.
Proof. revert m. induction ts as [|t ts IH]; intros m; simpl; [done|]. apply IH. Qed.

Lemma add_utxo_entries m (u : TransactionOutput) :
  add_utxo m u = fold_left add_entry (utxo_entries u) m.
Proof. unfold add_utxo. rewrite fold_add_token. reflexivity. Qed.

Lemma aggregate_from_entries m l :
  fold_left add_utxo l m = fold_left add_entry (l ≫= utxo_entries) m.
Proof.
  revert m. induction l as [|u l IH]; intros m; [done|].
  cbn [fold_left]. rewrite bind_cons, fold_left_app, <- add_utxo_entries.
  apply IH.
Qed.

Lemma aggregate_entries l :
  aggregate l = fold_left add_entry (l ≫= utxo_entries) empty.
Proof. apply aggregate_from_entries. Qed.

(** *** Keys *)

Lemma keys_add_entry m e k : k ∈ keys (add_entry m e) <-> k = e.1 \/ k ∈ keys m.
Proof. unfold add_entry. destruct (get e.1 m); apply elem_of_keys_set. Qed.

Lemma NoDup_add_entry m e : NoDup (keys m) -> NoDup (keys (add_entry m e)).
Proof. unfold add_entry. destruct (get e.1 m); apply NoDup_keys_set. Qed.

Lemma NoDup_fold_add_entry es m :
  NoDup (keys m) -> NoDup (keys (fold_left add_entry es m)).
Proof.
  revert m. induction es as [|e es IH]; intros m Hm; [done|].
  apply IH, NoDup_add_entry, Hm.
Qed.

Lemma keys_fold_add_entry es m k :
  k ∈ keys (fold_left add_entry es m) <-> k ∈ es.*1 \/ k ∈ keys m.
Proof.
  revert m. induction es as [|e es IH]; intros m; simpl.
  - split; [auto | intros [H|H]; [by apply elem_of_nil in H | done]].
  - rewrite IH, keys_add_entry, elem_of_cons. tauto.
Qed.

(** *** Lookups *)

Lemma get_add_entry m e k :
  get k (add_entry m e) = if decide (e.1 = k) then merge (get k m) e.2 else get k m.
Proof.
  unfold add_entry, merge. destruct (decide (e.1 = k)) as [<-|Hne].
  - destruct (get e.1 m); apply get_set_eq.
  - destruct (get e.1 m); by apply get_set_ne.
Qed.

Lemma at_key_cons k e es :
  at_key k (e :: es) = if decide (e.1 = k) then e.2 :: at_key k es else at_key k es.
Proof. unfold at_key. rewrite filter_cons. by case_decide. Qed.

Lemma at_key_app k es es' : at_key k (es ++ es') = at_key k es ++ at_key k es'.
Proof. unfold at_key. by rewrite filter_app, fmap_app. Qed.

Lemma get_fold_add_entry es m k :
  get k (fold_left add_entry es m) = fold_left merge (at_key k es) (get k m).
Proof.
  revert m. induction es as [|e es IH]; intros m; [done|].
  cbn [fold_left]. rewrite IH, get_add_entry, at_key_cons.
  by destruct (decide (e.1 = k)).
Qed.

(** *** Quantities *)

Lemma plus_zero_r (a : BigNumber.t) : plus a (Int 0) = a.
Proof. destruct a; simpl; [done|]. f_equal. lia. Qed.

Lemma sum_quantities_app qs qs' :
  sum_quantities (qs ++ qs') = plus (sum_quantities qs) (sum_quantities qs').
Proof.
  induction qs as [|q qs IH]; simpl.
  - destruct (sum_quantities qs'); simpl; [done|]. f_equal.
  - by rewrite IH, plus_assoc.
Qed.

Lemma sum_quantities_Permutation qs qs' :
  qs ≡ₚ qs' -> sum_quantities qs = sum_quantities qs'.
Proof.
  induction 1 as [|q qs qs' _ IH|q q' qs|qs qs' qs'' _ IH1 _ IH2]; simpl.
  - done.
  - by rewrite IH.
  - rewrite !plus_assoc. f_equal. apply plus_comm.
  - by rewrite IH1.
Qed.

Lemma of_string_merged_quantity qs :
  qs <> [] -> of_string (merged_quantity qs) = sum_quantities qs.
Proof.
  destruct qs as [|q [|q' qs]]; intros Hne; [done| |].
  - simpl. by rewrite plus_zero_r.
  - apply of_string_toString.
Qed.

Lemma merged_quantity_snoc qs q :
  qs <> [] ->
  toString (plus (of_string (merged_quantity qs)) (of_string q))
  = merged_quantity (qs ++ [q]).
Proof.
  intros Hne. rewrite of_string_merged_quantity by done.
  destruct qs as [|q0 qs]; [done|].
  replace (merged_quantity ((q0 :: qs) ++ [q]))
    with (toString (sum_quantities ((q0 :: qs) ++ [q])))
    by (by destruct qs).
  rewrite sum_quantities_app. simpl. by rewrite plus_zero_r.
Qed.

Lemma merged_quantity_Permutation qs qs' :
  qs ≡ₚ qs' -> merged_quantity qs = merged_quantity qs'.
Proof.
  intros Hp. pose proof (Permutation_length Hp) as Hlen.
  destruct qs as [|q [|q' qs]].
  - apply Permutation_nil_l in Hp. by subst.
  - apply Permutation_singleton_l in Hp. by subst.
  - destruct qs' as [|p [|p' qs']]; try discriminate.
    unfold merged_quantity. f_equal. by apply sum_quantities_Permutation.
Qed.

Lemma fold_merge_Some b (bs : list AssetBalance) :
  fold_left merge bs (Some b)
  = Some {| asset := asset b;
            quantity := merged_quantity (quantity b :: (quantity <$> bs)) |}.
Proof.
  induction bs as [|x bs IH] using rev_ind.
  - by destruct b.
  - rewrite fold_left_app, IH. cbn [fold_left]. unfold merge, add_quantity.
    cbn [asset quantity]. do 2 f_equal.
    rewrite fmap_app, app_comm_cons. cbn [fmap list_fmap].
    by apply merged_quantity_snoc.
Qed.

Lemma fold_merge_None (bs : list AssetBalance) :
  fold_left merge bs None = entry_of bs.
Proof. destruct bs as [|b bs]; [done|]. apply fold_merge_Some. Qed.

Lemma get_aggregate l k :
  get k (aggregate l) = entry_of (at_key k (l ≫= utxo_entries)).
Proof.
  rewrite aggregate_entries, get_fold_add_entry. apply fold_merge_None.
Qed.

Lemma NoDup_keys_aggregate l : NoDup (keys (aggregate l)).
Proof.
  rewrite aggregate_entries. apply NoDup_fold_add_entry. apply NoDup_nil_2.
Qed.

End AggregateFacts.

Module AggregateSpec.
Import JsMap JsMapFacts BigNumber BigNumberFacts AggregateFacts.

Implicit Types (k : string) (b : AssetBalance) (l : list TransactionOutput).

(** *** Decimal strings *)

Lemma digits_minus s : digits (String "-"%char s) = None.
Proof. unfold digits. simpl. by destruct (NilEmpty.uint_of_string s). Qed.

Lemma of_string_digits s z : digits s = Some z -> of_string s = Int z.
Proof.
  intros Hs. destruct s as [|c s]; [done|].
  destruct (decide (c = "-"%char)) as [->|Hc].
  { by rewrite digits_minus in Hs. }
  transitivity (from_option Int NaN (digits (String c s))); [|by rewrite Hs].
  unfold of_string.
  destruct c as [[] [] [] [] [] [] [] []]; try reflexivity; congruence.
Qed.

Lemma of_string_unsigned s :
  unsigned_decimal s -> of_string s = Int (decimal_value s).
Proof.
  intros [z Hz]. unfold decimal_value. rewrite Hz. by apply of_string_digits.
Qed.

Lemma sum_quantities_exact qs :
  Forall unsigned_decimal qs -> sum_quantities qs = Int (exact_sum qs).
Proof.
  induction 1 as [|q qs Hq _ IH]; simpl; [done|].
  by rewrite IH, (of_string_unsigned q Hq).
Qed.

Lemma merged_quantity_canonical qs :
  qs <> [] -> Forall canonical qs ->
  merged_quantity qs = toString (sum_quantities qs).
Proof.
  destruct qs as [|q [|q' qs]]; intros Hne Hc; [done| |done].
  apply Forall_cons_1 in Hc as [Hq _]. simpl. by rewrite plus_zero_r.
Qed.

(** *** The entries that arrive under a key *)

Lemma filter_none {A} (P : A -> Prop) `{!forall x, Decision (P x)} (xs : list A) :
  Forall (fun x => ~ P x) xs -> filter P xs = [].
Proof.
  induction 1 as [|x xs Hx _ IH]; [done|]. by rewrite filter_cons_False.
Qed.

Lemma at_key_token_entries k (ts : list Token) :
  at_key k (token_entry <$> ts)
  = Token_as_AssetBalance <$> filter (fun t => assetId (token_asset t) = k) ts.
Proof.
  induction ts as [|t ts IH]; [done|].
  rewrite fmap_cons, at_key_cons, filter_cons, IH. cbn [token_entry fst snd].
  by destruct (decide (assetId (token_asset t) = k)).
Qed.

Lemma at_key_utxo_entries k l :
  at_key k (l ≫= utxo_entries)
  = l ≫= fun u =>
      (if decide ("ada" = k)
       then [ {| asset := ada_asset; quantity := value u |} ] else [])
      ++ (Token_as_AssetBalance
            <$> filter (fun t => assetId (token_asset t) = k) (tokens u)).
Proof.
  induction l as [|u l IH]; [done|].
  rewrite !bind_cons, at_key_app, IH. f_equal.
  unfold utxo_entries. rewrite at_key_cons, at_key_token_entries.
  cbn [fst snd]. by destruct (decide ("ada" = k)).
Qed.

Lemma quantities_at_key k l :
  no_ada_token l ->
  quantity <$> at_key k (l ≫= utxo_entries) = contributions k l.
Proof.
  unfold no_ada_token, contributions, all_tokens. intros Hna.
  rewrite at_key_utxo_entries.
  induction l as [|u l IH]; [by destruct (decide (k = "ada"))|].
  rewrite bind_cons in Hna. apply Forall_app in Hna as [Hu Hl].
  rewrite !bind_cons, fmap_app, IH by done. clear IH.
  destruct (decide (k = "ada")) as [->|Hk].
  - rewrite decide_True by done. rewrite fmap_cons. cbn [app quantity]. f_equal.
    rewrite filter_none; [done|].
    eapply Forall_impl; [exact Hu|]. intros t Ht Heq. by apply Ht.
  - rewrite decide_False by done. rewrite filter_app, !fmap_app.
    rewrite fmap_nil, app_nil_l. f_equal. by rewrite <- list_fmap_compose.
Qed.

Lemma elem_of_at_key k b l :
  b ∈ at_key k (l ≫= utxo_entries) -> assetId (asset b) = k.
Proof.
  unfold at_key. intros ([k' b'] & -> & [Hk Hin]%list_elem_of_filter)%list_elem_of_fmap.
  cbn [fst snd] in *.
  apply list_elem_of_bind in Hin as (u & Hin & _).
  unfold utxo_entries in Hin. apply elem_of_cons in Hin as [Heq|Hin].
  - injection Heq as ? ?. by subst.
  - apply list_elem_of_fmap in Hin as (t & Heq & _).
    injection Heq as ? ?. by subst.
Qed.

(** Every entry of the result sits under the id of its asset. *)
Lemma aggregate_key k b l : (k, b) ∈ aggregate l -> assetId (asset b) = k.
Proof.
  intros Hin. apply elem_of_get in Hin; [|apply NoDup_keys_aggregate].
  rewrite get_aggregate in Hin.
  destruct (at_key k (l ≫= utxo_entries)) as [|b0 bs] eqn:Hbs; [done|].
  injection Hin as <-. cbn [asset].
  apply (elem_of_at_key k b0 l). rewrite Hbs. apply list_elem_of_here.
Qed.

Lemma values_ids l : assetId ∘ asset <$> values (aggregate l) = keys (aggregate l).
Proof.
  unfold values, keys. rewrite <- list_fmap_compose.
  apply list_fmap_ext. intros i [k b] Hin%list_elem_of_lookup_2. cbn.
  by apply aggregate_key in Hin.
Qed.

Lemma keys_aggregate l k : k ∈ keys (aggregate l) <-> k ∈ asset_ids l.
Proof.
  rewrite aggregate_entries, keys_fold_add_entry. unfold asset_ids, all_tokens.
  rewrite elem_of_app. split.
  - intros [Hin|Hin]; [|by apply elem_of_nil in Hin].
    apply list_elem_of_fmap in Hin as ([k' b] & -> & Hin).
    apply list_elem_of_bind in Hin as (u & Hin & Hu).
    unfold utxo_entries in Hin. apply elem_of_cons in Hin as [[= -> ->]|Hin].
    + left. destruct l; [by apply elem_of_nil in Hu | apply list_elem_of_here].
    + right. apply list_elem_of_fmap in Hin as (t & [= -> ->] & Ht).
      apply list_elem_of_fmap. exists t. split; [done|].
      apply list_elem_of_bind. eauto.
  - intros [Hin|Hin]; left.
    + destruct l as [|u l]; [by apply elem_of_nil in Hin|].
      apply list_elem_of_singleton in Hin as ->.
      rewrite bind_cons. unfold utxo_entries at 1. rewrite fmap_app, fmap_cons.
      apply list_elem_of_here.
    + apply list_elem_of_fmap in Hin as (t & -> & Ht).
      apply list_elem_of_bind in Ht as (u & Ht & Hu).
      apply list_elem_of_fmap. exists (token_entry t). split; [done|].
      apply list_elem_of_bind. exists u. split; [|done].
      unfold utxo_entries. apply list_elem_of_further, list_elem_of_fmap. eauto.
Qed.

End AggregateSpec.

Module AggregateOrder.
Import JsMap JsMapFacts BigNumber BigNumberFacts AggregateFacts AggregateSpec.

Implicit Types (k : string) (b : AssetBalance) (l : list TransactionOutput).

Lemma utxo_entries_same_record (u u' : TransactionOutput) :
  same_record u u' -> utxo_entries u ≡ₚ utxo_entries u'.
Proof.
  intros [Hv Ht]. unfold utxo_entries. rewrite Hv. by rewrite Ht.
Qed.

Lemma entries_reordered l l' :
  reordered l l' -> (l ≫= utxo_entries) ≡ₚ (l' ≫= utxo_entries).
Proof.
  intros (l1 & Hp & Hf). rewrite Hp. clear l Hp.
  induction Hf as [|u u' l1 l' Hu _ IH]; [done|].
  rewrite !bind_cons. by rewrite IH, (utxo_entries_same_record u u' Hu).
Qed.

Lemma at_key_reordered k l l' :
  reordered l l' ->
  at_key k (l ≫= utxo_entries) ≡ₚ at_key k (l' ≫= utxo_entries).
Proof. intros H%entries_reordered. unfold at_key. by rewrite H. Qed.

Lemma reordered_nil l l' : reordered l l' -> l = [] <-> l' = [].
Proof.
  intros (l1 & Hp%Permutation_length & Hf%Forall2_length).
  destruct l, l'; simpl in *; split; intros; try done; lia.
Qed.

(** *** The quantity of a key *)

Lemma quantity_entry_of (bs : list AssetBalance) :
  quantity <$> entry_of bs
  = if bs is [] then None else Some (merged_quantity (quantity <$> bs)).
Proof. by destruct bs. Qed.

Lemma quantity_entry_of_Permutation (bs bs' : list AssetBalance) :
  bs ≡ₚ bs' -> quantity <$> entry_of bs = quantity <$> entry_of bs'.
Proof.
  intros Hp. rewrite !quantity_entry_of.
  destruct bs as [|b bs], bs' as [|b' bs'].
  - done.
  - by apply Permutation_nil_l in Hp.
  - by apply Permutation_nil_r in Hp.
  - f_equal. apply merged_quantity_Permutation. by rewrite Hp.
Qed.

(** *** The asset of a key *)

Lemma asset_entry_of (bs : list AssetBalance) :
  asset <$> entry_of bs = asset <$> head bs.
Proof. by destruct bs. Qed.

Lemma entry_of_eq (bs bs' : list AssetBalance) :
  quantity <$> entry_of bs = quantity <$> entry_of bs' ->
  asset <$> entry_of bs = asset <$> entry_of bs' ->
  entry_of bs = entry_of bs'.
Proof.
  destruct (entry_of bs) as [[a q]|], (entry_of bs') as [[a' q']|];
    simpl; intros; by simplify_eq.
Qed.

Lemma head_at_key_ada l :
  asset <$> head (at_key "ada" (l ≫= utxo_entries))
  = if l is [] then None else Some ada_asset.
Proof.
  destruct l as [|u l]; [done|].
  rewrite bind_cons. unfold utxo_entries at 1.
  rewrite <- app_comm_cons, at_key_cons. cbn [fst snd]. by rewrite decide_True.
Qed.

Lemma at_key_token k b l :
  k <> "ada" -> b ∈ at_key k (l ≫= utxo_entries) ->
  exists t, t ∈ all_tokens l /\ assetId (token_asset t) = k
            /\ b = Token_as_AssetBalance t.
Proof.
  intros Hk Hb. rewrite at_key_utxo_entries in Hb.
  apply list_elem_of_bind in Hb as (u & Hb & Hu).
  rewrite decide_False, app_nil_l in Hb by done.
  apply list_elem_of_fmap in Hb as (t & -> & [Ht Hin]%list_elem_of_filter).
  exists t. split_and!; try done.
  apply list_elem_of_bind. eauto.
Qed.

Lemma asset_head_reordered k l l' :
  reordered l l' -> consistent_assets l ->
  asset <$> head (at_key k (l ≫= utxo_entries))
  = asset <$> head (at_key k (l' ≫= utxo_entries)).
Proof.
  intros Hr Hc. destruct (decide (k = "ada")) as [->|Hk].
  - rewrite !head_at_key_ada. pose proof (reordered_nil l l' Hr) as Hnil.
    destruct l, l'; try done; destruct Hnil as [H1 H2]; by (specialize (H1 eq_refl) || specialize (H2 eq_refl)).
  - pose proof (at_key_reordered k l l' Hr) as Hp.
    destruct (at_key k (l ≫= utxo_entries)) as [|b bs] eqn:Hbs,
             (at_key k (l' ≫= utxo_entries)) as [|b' bs'] eqn:Hbs'.
    + done.
    + by apply Permutation_nil_l in Hp.
    + by apply Permutation_nil_r in Hp.
    + simpl. f_equal.
      assert (Hb : b ∈ at_key k (l ≫= utxo_entries))
        by (rewrite Hbs; apply list_elem_of_here).
      assert (Hb' : b' ∈ at_key k (l ≫= utxo_entries))
        by (rewrite Hbs, Hp; apply list_elem_of_here).
      apply at_key_token in Hb as (t & Ht & Hid & ->); [|done].
      apply at_key_token in Hb' as (t' & Ht' & Hid' & ->); [|done].
      unfold consistent_assets in Hc.
      rewrite Forall_forall in Hc. specialize (Hc t Ht).
      rewrite Forall_forall in Hc. apply (Hc t' Ht'). congruence.
Qed.

Lemma get_aggregate_reordered k l l' :
  reordered l l' -> consistent_assets l ->
  get k (aggregate l) = get k (aggregate l').
Proof.
  intros Hr Hc. rewrite !get_aggregate. apply entry_of_eq.
  - by apply quantity_entry_of_Permutation, at_key_reordered.
  - rewrite !asset_entry_of. by apply asset_head_reordered.
Qed.

Lemma balance_keys_aggregate l :
  balance_key <$> values (aggregate l) = prod_map id quantity <$> aggregate l.
Proof.
  unfold values. rewrite <- list_fmap_compose.
  apply list_fmap_ext. intros i [k b] Hin%list_elem_of_lookup_2.
  unfold balance_key. cbn. f_equal. by apply aggregate_key in Hin.
Qed.

End AggregateOrder.

(** ** The balance aggregation: the claims *)

Section AggregationClaims.
Import JsMap JsMapFacts BigNumber BigNumberFacts.
Import AggregateFacts AggregateSpec AggregateOrder.

Lemma digits_nonneg s z : digits s = Some z -> 0 <= z.
Proof.
  destruct s as [|c s]; [done|]. unfold digits.
  destruct (NilEmpty.uint_of_string (String c s)) as [d|]; [|done].
  intros [= <-]. unfold Z.of_uint. apply N2Z.is_nonneg.
Qed.

Lemma digits_toString z : 0 <= z -> digits (toString (Int z)) = Some z.
Proof.
  destruct z as [|p|p]; intros Hz; [done | apply digits_to_uint | lia].
Qed.

Lemma contributions_quantities k l q :
  q ∈ contributions k l -> q ∈ all_quantities l.
Proof.
  unfold contributions, all_quantities, all_tokens. case_decide.
  - intros (u & -> & Hu)%list_elem_of_fmap. apply list_elem_of_bind.
    exists u. split; [apply list_elem_of_here | done].
  - intros (t & -> & [_ Ht]%list_elem_of_filter)%list_elem_of_fmap.
    apply list_elem_of_bind in Ht as (u & Ht & Hu).
    apply list_elem_of_bind. exists u. split; [|done].
    apply list_elem_of_further, list_elem_of_fmap. eauto.
Qed.

Lemma Forall_contributions (P : string -> Prop) k l :
  Forall P (all_quantities l) -> Forall P (contributions k l).
Proof.
  rewrite !Forall_forall. intros H q Hq. eapply H, contributions_quantities, Hq.
Qed.

(** The entry of the result that carries a given balance. *)
Lemma balance_entry l b :
  b ∈ values (aggregate l) ->
  no_ada_token l ->
  contributions (assetId (asset b)) l <> []
  /\ quantity b = merged_quantity (contributions (assetId (asset b)) l).
Proof.
  intros Hb Hna. unfold values in Hb.
  apply list_elem_of_fmap in Hb as ([k b'] & -> & Hin). cbn [snd].
  pose proof (aggregate_key _ _ _ Hin) as Hk.
  apply elem_of_get in Hin; [|apply NoDup_keys_aggregate].
  rewrite get_aggregate in Hin. rewrite Hk, <- quantities_at_key by done.
  destruct (at_key k (l ≫= utxo_entries)) as [|b0 bs]; [done|].
  injection Hin as <-. done.
Qed.

End AggregationClaims.

(** C3. When no token goes by the reserved id ["ada"], the summary holds
    exactly one balance per asset id of the input, and the quantity of each
    balance is the exact sum of the quantities the input contributes to that
    asset: read as a number it is that sum, and it is the printed sum itself
    when the input quantities are printed canonically. The two records of the
    example give the three balances 3000000, 12 and 1. *)
Theorem aggregation_one_balance_per_asset (l : list TransactionOutput) (count : Z) :
  well_formed l -> no_ada_token l ->
  NoDup (assetId ∘ asset <$> balances_of l count)
  /\ (forall id, id ∈ (assetId ∘ asset <$> balances_of l count) <-> id ∈ asset_ids l)
  /\ (forall b, b ∈ balances_of l count ->
        let total := exact_sum (contributions (assetId (asset b)) l) in
        BigNumber.of_string (quantity b) = BigNumber.Int total
        /\ (Forall canonical (all_quantities l) ->
            quantity b = BigNumber.toString (BigNumber.Int total)))
  /\ balances_of example_utxos 2
     = [ {| asset := ada_asset; quantity := "3000000" |};
         Token_as_AssetBalance (token_of "A" "12");
         Token_as_AssetBalance (token_of "B" "1") ].
Proof.
  intros Hwf Hna. unfold balances_of, getPaymentAddressSummary.
  cbn [assetBalances utxos]. split_and!.
  - rewrite AggregateSpec.values_ids. apply AggregateFacts.NoDup_keys_aggregate.
  - intros id. rewrite AggregateSpec.values_ids. apply AggregateSpec.keys_aggregate.
  - intros b Hb.
    destruct (balance_entry l b Hb Hna) as [Hne Hq]. rewrite Hq. split.
    + rewrite AggregateFacts.of_string_merged_quantity by done.
      apply AggregateSpec.sum_quantities_exact. by apply Forall_contributions.
    + intros Hc.
      rewrite AggregateSpec.merged_quantity_canonical
        by (done || by apply Forall_contributions).
      f_equal. apply AggregateSpec.sum_quantities_exact.
      by apply Forall_contributions.
  - vm_compute. reflexivity.
Qed.

Lemma aggregation_one_balance_per_asset_witness :
  well_formed example_utxos /\ no_ada_token example_utxos
  /\ NoDup (assetId ∘ asset <$> balances_of example_utxos 2).
Proof.
  assert (Hwf : well_formed example_utxos).
  { unfold well_formed. vm_compute all_quantities.
    repeat constructor; eexists; vm_compute; reflexivity. }
  assert (Hna : no_ada_token example_utxos).
  { unfold no_ada_token. vm_compute all_tokens. repeat constructor; discriminate. }
  split_and!; [exact Hwf | exact Hna |].
  exact (proj1 (aggregation_one_balance_per_asset example_utxos 2 Hwf Hna)).
Defined.

(** C4. The quantity addition of the aggregation is exact: for two unsigned
    decimal strings the stored result is the printed integer sum, a decimal
    string that denotes exactly that sum, however large; 9007199254740993
    and 1 give 9007199254740994. *)
Theorem quantity_addition_exact (current : AssetBalance) (q : string) :
  unsigned_decimal (quantity current) -> unsigned_decimal q ->
  let sum := decimal_value (quantity current) + decimal_value q in
  quantity (add_quantity current q) = BigNumber.toString (BigNumber.Int sum)
  /\ BigNumber.digits (quantity (add_quantity current q)) = Some sum
  /\ asset (add_quantity current q) = asset current
  /\ quantity (add_quantity {| asset := ada_asset; quantity := "9007199254740993" |} "1")
     = "9007199254740994".
Proof.
  intros Hc Hq sum. unfold add_quantity. cbn [quantity asset].
  rewrite (AggregateSpec.of_string_unsigned _ Hc), (AggregateSpec.of_string_unsigned _ Hq).
  cbn [BigNumber.plus]. split_and!; try reflexivity.
  apply digits_toString. destruct Hc as [x Hx], Hq as [y Hy].
  subst sum. unfold decimal_value. rewrite Hx, Hy. simpl.
  apply digits_nonneg in Hx, Hy. lia.
Qed.

Lemma quantity_addition_exact_witness :
  unsigned_decimal "9007199254740993" /\ unsigned_decimal "1"
  /\ BigNumber.digits
       (quantity (add_quantity
                    {| asset := ada_asset; quantity := "9007199254740993" |} "1"))
     = Some 9007199254740994.
Proof.
  assert (H1 : unsigned_decimal "9007199254740993") by (eexists; vm_compute; reflexivity).
  assert (H2 : unsigned_decimal "1") by (eexists; vm_compute; reflexivity).
  split_and!; [exact H1 | exact H2 |].
  exact (proj1 (proj2 (quantity_addition_exact
                         {| asset := ada_asset; quantity := "9007199254740993" |}
                         "1" H1 H2))).
Defined.

(** C5. The records in another order, and the tokens of each record in
    another order, give the same balances up to their order: always the same
    multiset of asset id and quantity, and the same multiset of whole balances
    when the tokens of one asset id describe their asset alike. *)
Theorem aggregation_order_independent
    (l l' : list TransactionOutput) (count count' : Z) :
  reordered l l' ->
  (balance_key <$> balances_of l count) ≡ₚ (balance_key <$> balances_of l' count')
  /\ (consistent_assets l -> balances_of l count ≡ₚ balances_of l' count').
Proof.
  intros Hr. unfold balances_of, getPaymentAddressSummary.
  cbn [assetBalances utxos]. split.
  - rewrite !AggregateOrder.balance_keys_aggregate.
    apply JsMapFacts.get_ext_Permutation.
    + rewrite JsMapFacts.keys_fmap. apply AggregateFacts.NoDup_keys_aggregate.
    + rewrite JsMapFacts.keys_fmap. apply AggregateFacts.NoDup_keys_aggregate.
    + intros k. rewrite !JsMapFacts.get_fmap, !AggregateFacts.get_aggregate.
      by apply AggregateOrder.quantity_entry_of_Permutation,
               AggregateOrder.at_key_reordered.
  - intros Hc. unfold JsMap.values. apply fmap_Permutation.
    apply JsMapFacts.get_ext_Permutation;
      try apply AggregateFacts.NoDup_keys_aggregate.
    intros k. by apply AggregateOrder.get_aggregate_reordered.
Qed.

Lemma aggregation_order_independent_witness :
  reordered example_utxos example_utxos_reordered
  /\ (balance_key <$> balances_of example_utxos 2)
     ≡ₚ (balance_key <$> balances_of example_utxos_reordered 2).
Proof.
  assert (Hr : reordered example_utxos example_utxos_reordered).
  { exists [ {| value := "2000000"; tokens := [token_of "A" "7"; token_of "B" "1"] |};
             {| value := "1000000"; tokens := [token_of "A" "5"] |} ].
    split; [apply perm_swap|].
    repeat constructor; simpl; apply perm_swap. }
  split; [exact Hr|].
  exact (proj1 (aggregation_order_independent _ _ 2 2 Hr)).
Defined.

(** C10. With no utxo record the summary has no balance at all, hence no
    ["ada"] balance of quantity 0, and in every case [utxosCount] is the
    count that the aggregate query answered, whatever the records are. *)
Theorem summary_without_utxos (count : Z) :
  getPaymentAddressSummary {| utxos := []; utxos_aggregate_count := count |}
  = {| assetBalances := []; utxosCount := count |}
  /\ (forall data, utxosCount (getPaymentAddressSummary data)
                   = utxos_aggregate_count data).
Proof. split; [reflexivity | by intros []]. Qed.

Example example_aggregate :
  assetBalances (getPaymentAddressSummary
                   {| utxos := example_utxos; utxos_aggregate_count := 2 |})
  = [ {| asset := ada_asset; quantity := "3000000" |};
      Token_as_AssetBalance (token_of "A" "12");
      Token_as_AssetBalance (token_of "B" "1") ].
Proof. vm_compute. reflexivity. Qed.

(** A token that goes by the id ["ada"] is added to the base currency, which
    is why the reserved key must not be the id of a token. *)
Example token_under_the_reserved_key :
  balances_of [ {| value := "1000000"; tokens := [token_of "ada" "5"] |} ] 1
  = [ {| asset := ada_asset; quantity := "1000005" |} ].
Proof. vm_compute. reflexivity. Qed.

(** The first quantity of an asset is stored as the string it came as; only
    a sum is printed anew. *)
Example first_quantity_is_kept :
  balances_of [ {| value := "007"; tokens := [] |} ] 1
  = [ {| asset := ada_asset; quantity := "007" |} ]
  /\ balances_of [ {| value := "007"; tokens := [] |};
                   {| value := "1"; tokens := [] |} ] 2
     = [ {| asset := ada_asset; quantity := "8" |} ].
Proof. vm_compute. auto. Qed.

(** ** Asynchronous code *)

Module ProcFacts.

Lemma run_bind {A B} env (m : proc A) (f : A -> proc B) w :
  run env (m ≫= f) w
  = match run env m w with
    | (inr a, w') => run env (f a) w'
    | (inl e, w') => (inl e, w')
    end.
Proof.
  change (m ≫= f) with (bind m f). revert w.
  induction m as [a|e|k IH|b k IH|lv msg k IH|op n rest e k IH|c k IH|d k IH|k IH];
    intros w; cbn [bind run]; auto.
Qed.

Lemma run_try {A} env (m : proc A) w :
  run env (try_ m) w = (inr (run env m w).1, (run env m w).2).
Proof.
  revert w.
  induction m as [a|e|k IH|b k IH|lv msg k IH|op n rest e k IH|c k IH|d k IH|k IH];
    intros w; cbn [try_ run]; auto.
Qed.

(** A run is the run up to the next [await] and, from there, the rest. *)
Lemma run_advance {A} env (m : proc A) w :
  run env m w = settle env (advance m w).1 (advance m w).2.
Proof.
  revert w.
  induction m as [a|e|k IH|b k IH|lv msg k IH|op n rest e k IH|c k IH|d k IH|k IH];
    intros w; cbn [run advance]; auto.
Qed.

(** *** Programs that leave the flag alone *)

Lemma flag_free_bind {A B} (m : proc A) (f : A -> proc B) :
  flag_free m -> (forall a, flag_free (f a)) -> flag_free (m ≫= f).
Proof.
  change (m ≫= f) with (bind m f).
  induction 1; intros Hf; cbn [bind]; try (constructor; auto); auto.
Qed.

Lemma flag_free_try {A} (m : proc A) : flag_free m -> flag_free (try_ m).
Proof. induction 1; cbn [try_]; constructor; auto. Qed.

Lemma flag_free_retry_from {A} (input : nat -> proc A) options remaining attempt :
  (forall n, flag_free (input n)) ->
  (forall error, flag_free (onFailedAttempt options error)) ->
  flag_free (retry_from input options remaining attempt).
Proof.
  intros Hin Hcb. revert attempt.
  induction remaining as [|remaining IH]; intros attempt; cbn [retry_from];
    (apply flag_free_bind; [by apply flag_free_try|]);
    intros [e|v]; try constructor;
    (apply flag_free_bind; [apply Hcb|]); intros _; constructor; apply IH.
Qed.

Lemma flag_free_pRetry {A} (input : nat -> proc A) options :
  (forall n, flag_free (input n)) ->
  (forall error, flag_free (onFailedAttempt options error)) ->
  flag_free (pRetry input options).
Proof. apply flag_free_retry_from. Qed.

Lemma flag_free_hasuraCli this command : flag_free (hasuraCli this command).
Proof.
  unfold hasuraCli. constructor. intros r.
  destruct (exec_error r); repeat constructor.
Qed.

Lemma flag_free_migrations this : flag_free (migrations this).
Proof.
  apply flag_free_bind; [|intros _]; apply flag_free_hasuraCli.
Qed.

Lemma flag_free_metadata this : flag_free (metadata this).
Proof.
  apply flag_free_bind; [|intros _]; apply flag_free_hasuraCli.
Qed.

Lemma flag_free_onFailedAttemptFor operation error :
  flag_free (onFailedAttemptFor operation error).
Proof. repeat constructor. Qed.

Lemma run_flag_free {A} env (m : proc A) w :
  flag_free m ->
  applyingSchemaAndMetadata (run env m w).2 = applyingSchemaAndMetadata w.
Proof.
  intros Hm. revert w. induction Hm; intros w; cbn [run]; auto;
    match goal with IH : _ |- _ => by rewrite IH end.
Qed.

End ProcFacts.

(** ** The schema synchroniser *)

Example apply_on_healthy_store remote :
  let r := run (healthy remote) (applySchemaAndMetadata example_client) constructed in
  r.1 = inr tt
  /\ applyingSchemaAndMetadata r.2 = false
  /\ exec_log (trace r.2)
     = [ (cmdline example_client migrate_down, true);
         (cmdline example_client migrate_up, true);
         (cmdline example_client metadata_clear, true);
         (cmdline example_client metadata_apply, true) ].
Proof. vm_compute. auto. Qed.

Module ApplyFacts.
Import ProcFacts.

Lemma flag_free_retried_migrations this :
  flag_free (pRetry (fun _ => migrations this)
                    (retry_options "Applying PostgreSQL schema migrations")).
Proof.
  apply flag_free_pRetry; intros;
    [apply flag_free_migrations | apply flag_free_onFailedAttemptFor].
Qed.

Lemma flag_free_retried_metadata this :
  flag_free (pRetry (fun _ => metadata this)
                    (retry_options "Applying Hasura metadata")).
Proof.
  apply flag_free_pRetry; intros;
    [apply flag_free_metadata | apply flag_free_onFailedAttemptFor].
Qed.

Lemma run_apply_idle env this w :
  applyingSchemaAndMetadata w = false ->
  run env (applySchemaAndMetadata this) w
  = run env (critical_section this) (set_applying true w).
Proof. intros Hw. unfold applySchemaAndMetadata. cbn [run]. by rewrite Hw. Qed.

Lemma run_apply_applying env this w :
  applyingSchemaAndMetadata w = true ->
  run env (applySchemaAndMetadata this) w = (inr tt, w).
Proof. intros Hw. unfold applySchemaAndMetadata. cbn [run]. by rewrite Hw. Qed.

End ApplyFacts.

(** ** Calls in flight *)

Module InFlight.
Import ProcFacts ApplyFacts.

Lemma holds_flag_bind {A B} (m : proc A) (f : A -> proc B) :
  flag_free m -> (forall a, holds_flag (f a)) -> holds_flag (m ≫= f).
Proof.
  change (m ≫= f) with (bind m f).
  induction 1; intros Hf; cbn [bind]; try (constructor; auto); auto.
Qed.

Lemma holds_flag_critical_section this : holds_flag (critical_section this).
Proof.
  unfold critical_section.
  apply holds_flag_bind; [apply flag_free_retried_migrations|]. intros _.
  apply holds_flag_bind; [apply flag_free_retried_metadata|]. intros _.
  repeat constructor.
Qed.

Lemma advance_quiet {A} (m : proc A) w : quiet m -> ~ in_flight (advance m w).1.
Proof.
  intros Hm. revert w. induction Hm; intros w; cbn [advance]; auto.
Qed.

(** Up to an [await], a program that holds the flag has not written it. *)
Lemma advance_holds_flag {A} (m : proc A) w :
  holds_flag m -> in_flight (advance m w).1 ->
  applyingSchemaAndMetadata (advance m w).2 = applyingSchemaAndMetadata w
  /\ pending_holds_flag (advance m w).1.
Proof.
  intros Hm. revert w. induction Hm; intros w; cbn [advance]; try done.
  - auto.
  - intros Hin. by apply advance_quiet in Hin.
  - intros Hin. by destruct (IHHm _ Hin).
  - intros Hin. by destruct (IHHm _ Hin).
Qed.

Lemma resume_holds_flag {A} (p : Pending A) wk w :
  pending_holds_flag p -> in_flight (resume p wk w).1 ->
  applyingSchemaAndMetadata (resume p wk w).2 = applyingSchemaAndMetadata w
  /\ pending_holds_flag (resume p wk w).1.
Proof.
  intros Hp. destruct p as [r|c k|d k|k], wk as [r'| |r']; cbn [resume fst snd];
    try done; intros Hin.
  - by apply (advance_holds_flag (k r') (emit (EvExec c r') w)).
  - by apply (advance_holds_flag k (emit (EvSleep d) w)).
  - by apply (advance_holds_flag (k r') (emit (EvIntrospect r') w)).
Qed.

(** *** The first call *)

Lemma advance_apply_idle this w :
  applyingSchemaAndMetadata w = false ->
  advance (applySchemaAndMetadata this) w
  = advance (critical_section this) (set_applying true w).
Proof. intros Hw. unfold applySchemaAndMetadata. cbn [advance]. by rewrite Hw. Qed.

Lemma advance_apply_applying this w :
  applyingSchemaAndMetadata w = true ->
  advance (applySchemaAndMetadata this) w = (Finished (inr tt), w).
Proof. intros Hw. unfold applySchemaAndMetadata. cbn [advance]. by rewrite Hw. Qed.

Lemma one_call_start this w :
  applyingSchemaAndMetadata w = false ->
  one_call_invariant
    (call (applySchemaAndMetadata this) {| world := w; calls := [] |}).
Proof.
  intros Hw. unfold call. cbn [world calls]. rewrite advance_apply_idle by done.
  pose proof (advance_holds_flag (critical_section this) (set_applying true w)
                (holds_flag_critical_section this)) as H.
  destruct (advance (critical_section this) (set_applying true w)) as [p w1].
  exists p. split; [done|]. intros Hin. cbn [fst snd] in H. by apply H.
Qed.

Lemma one_call_wake s i wk :
  one_call_invariant s -> one_call_invariant (wake s i wk).
Proof.
  intros (p & Hc & Hp). unfold wake. rewrite Hc.
  destruct i as [|i]; cbn [lookup list_lookup]; [|by exists p].
  pose proof (resume_holds_flag p wk (world s)) as H.
  destruct (resume p wk (world s)) as [p' w'] eqn:E. cbn [fst snd] in H.
  exists p'. split; [done|]. cbn [world]. intros Hin.
  assert (Hp0 : in_flight p).
  { destruct p; [|done..]. cbn in E. injection E as <- <-. done. }
  destruct (Hp Hp0) as [Hflag Hh]. destruct (H Hh Hin) as [H1 H2].
  split; [congruence | done].
Qed.

Lemma one_call_wakes s schedule :
  one_call_invariant s -> one_call_invariant (wakes s schedule).
Proof.
  revert s. induction schedule as [|[i wk] schedule IH]; intros s Hs; [done|].
  apply IH, one_call_wake, Hs.
Qed.

(** *** A second call beside the first *)

Lemma wake_beside s r i wk :
  length (calls s) = 1%nat ->
  wake (beside s r) i wk = beside (wake s i wk) r.
Proof.
  intros Hlen. unfold wake, beside. cbn [calls world].
  destruct (calls s) as [|p [|]] eqn:Hc; try done.
  destruct i as [|[|i]]; cbn [lookup list_lookup app].
  - destruct (resume p wk (world s)) as [p' w']. done.
  - by rewrite Hc.
  - by rewrite Hc.
Qed.

Lemma length_calls_wake s i wk : length (calls (wake s i wk)) = length (calls s).
Proof.
  unfold wake. destruct (calls s !! i) as [p|]; [|done].
  destruct (resume p wk (world s)). cbn [calls]. apply length_insert.
Qed.

Lemma wakes_beside s r schedule :
  length (calls s) = 1%nat ->
  wakes (beside s r) schedule = beside (wakes s schedule) r.
Proof.
  revert s. induction schedule as [|[i wk] schedule IH]; intros s Hlen; [done|].
  cbn [wakes fold_left fst snd]. rewrite wake_beside by done.
  apply IH. by rewrite length_calls_wake.
Qed.

End InFlight.

(** C7. A call that finds the flag set returns at once, without an error and
    without a command or any other effect. So when a second call is made
    while the first is in flight, whatever events arrived before, the second
    call is finished as it starts, and whatever events arrive afterwards, the
    client goes through the states of the one apply sequence of the first
    call alone, with the finished second call beside it. *)
Theorem second_call_in_flight_is_skipped
    (this : HasuraClient) (w : World) (before after : list (nat * Wake)) :
  applyingSchemaAndMetadata w = false ->
  let first := call (applySchemaAndMetadata this) {| world := w; calls := [] |} in
  let s1 := wakes first before in
  (exists p, calls s1 !! 0%nat = Some p /\ in_flight p) ->
  let s2 := call (applySchemaAndMetadata this) s1 in
  applyingSchemaAndMetadata (world s1) = true
  /\ advance (applySchemaAndMetadata this) (world s1)
     = (Finished (inr tt), world s1)
  /\ calls s2 !! 1%nat = Some (Finished (inr tt))
  /\ world s2 = world s1
  /\ world (wakes s2 after) = world (wakes s1 after)
  /\ calls (wakes s2 after) = calls (wakes s1 after) ++ [Finished (inr tt)].
Proof.
  intros Hw first s1 (p & Hp & Hin) s2.
  assert (Hinv : one_call_invariant s1)
    by (apply InFlight.one_call_wakes, InFlight.one_call_start, Hw).
  destruct Hinv as (p' & Hc & Hflag). rewrite Hc in Hp. injection Hp as ->.
  destruct (Hflag Hin) as [Hset _].
  pose proof (InFlight.advance_apply_applying this (world s1) Hset) as Hadv.
  assert (Hs2 : s2 = beside s1 (inr tt)).
  { subst s2. unfold call. by rewrite Hadv. }
  split_and!; try done.
  - rewrite Hs2. unfold beside. cbn [calls]. by rewrite Hc.
  - by rewrite Hs2.
  - rewrite Hs2, InFlight.wakes_beside; [done | by rewrite Hc].
  - rewrite Hs2, InFlight.wakes_beside; [done | by rewrite Hc].
Qed.

Lemma second_call_in_flight_is_skipped_witness :
  let first :=
    call (applySchemaAndMetadata example_client) {| world := constructed; calls := [] |} in
  let s1 := wakes first [(0%nat, Exited example_exit)] in
  let s2 := call (applySchemaAndMetadata example_client) s1 in
  (exists p, calls s1 !! 0%nat = Some p /\ in_flight p)
  /\ calls s2 !! 1%nat = Some (Finished (inr tt))
  /\ world s2 = world s1.
Proof.
  intros first s1 s2.
  assert (Hin : exists p, calls s1 !! 0%nat = Some p /\ in_flight p).
  { eexists. split; [vm_compute; reflexivity | exact I]. }
  split; [exact Hin|].
  pose proof (second_call_in_flight_is_skipped example_client constructed
                [(0%nat, Exited example_exit)] [] eq_refl Hin) as H.
  exact (conj (proj1 (proj2 (proj2 H))) (proj1 (proj2 (proj2 (proj2 H))))).
Defined.

(** ** The flag from the start of a call to its end *)

Module Release.
Import ProcFacts ApplyFacts InFlight.

Lemma releases_flag_bind {A} (m : proc A) (f : A -> proc unit) :
  flag_free m -> (forall a, releases_flag (f a)) -> releases_flag (m ≫= f).
Proof.
  change (m ≫= f) with (bind m f).
  induction 1; intros Hf; cbn [bind]; try (constructor; auto); auto.
Qed.

Lemma releases_flag_critical_section this : releases_flag (critical_section this).
Proof.
  unfold critical_section.
  apply releases_flag_bind; [apply flag_free_retried_migrations|]. intros _.
  apply releases_flag_bind; [apply flag_free_retried_metadata|]. intros _.
  constructor.
Qed.

(** Up to its next [await] or to its end, such a program has cleared the flag
    exactly when it has resolved. *)
Lemma advance_releases_flag (m : proc unit) w :
  releases_flag m -> applyingSchemaAndMetadata w = true ->
  flag_as_settled (advance m w).1 (advance m w).2
  /\ pending_releases_flag (advance m w).1.
Proof.
  intros Hm. revert w.
  induction Hm; intros w Hw; cbn [advance]; try done; auto.
Qed.

Lemma resume_releases_flag (p : Pending unit) wk w :
  pending_releases_flag p -> flag_as_settled p w ->
  flag_as_settled (resume p wk w).1 (resume p wk w).2
  /\ pending_releases_flag (resume p wk w).1.
Proof.
  intros Hp Hw.
  destruct p as [r|c k|d k|k], wk as [r'| |r']; cbn [resume fst snd]; try done.
  - by apply (advance_releases_flag (k r') (emit (EvExec c r') w)).
  - by apply (advance_releases_flag k (emit (EvSleep d) w)).
  - by apply (advance_releases_flag (k r') (emit (EvIntrospect r') w)).
Qed.

Lemma one_call_releases_start this w :
  applyingSchemaAndMetadata w = false ->
  one_call_releases
    (call (applySchemaAndMetadata this) {| world := w; calls := [] |}).
Proof.
  intros Hw. unfold call. cbn [world calls]. rewrite advance_apply_idle by done.
  pose proof (advance_releases_flag (critical_section this) (set_applying true w)
                (releases_flag_critical_section this) eq_refl) as H.
  destruct (advance (critical_section this) (set_applying true w)) as [p w1].
  by exists p.
Qed.

Lemma one_call_releases_wake s i wk :
  one_call_releases s -> one_call_releases (wake s i wk).
Proof.
  intros (p & Hc & Hflag & Hp). unfold wake. rewrite Hc.
  destruct i as [|i]; cbn [lookup list_lookup]; [|by exists p].
  pose proof (resume_releases_flag p wk (world s) Hp Hflag) as H.
  destruct (resume p wk (world s)) as [p' w']. by exists p'.
Qed.

Lemma one_call_releases_wakes s schedule :
  one_call_releases s -> one_call_releases (wakes s schedule).
Proof.
  revert s. induction schedule as [|[i wk] schedule IH]; intros s Hs; [done|].
  apply IH, one_call_releases_wake, Hs.
Qed.

(** Nothing happens to a call that has ended. *)
Lemma wakes_finished s r schedule :
  calls s = [Finished r] -> wakes s schedule = s.
Proof.
  intros Hc. induction schedule as [|[i wk] schedule IH]; [done|].
  cbn [wakes fold_left fst snd]. fold (wakes (wake s i wk) schedule).
  assert (Hwake : wake s i wk = s).
  { unfold wake. rewrite Hc. destruct s as [w cs]. cbn in Hc. subst cs.
    by destruct i as [|i]. }
  by rewrite Hwake.
Qed.

End Release.

(** C1 (as the code has it). From the moment a call has set the flag, the
    flag is clear again exactly when the call has resolved: the reset is the
    last statement of the function, after both retried units. Whatever
    events arrive, and however many attempts have failed, the flag stays set
    as long as the call has not resolved. *)
Theorem applying_flag_is_cleared_on_completion_only
    (this : HasuraClient) (w : World) (schedule : list (nat * Wake)) :
  applyingSchemaAndMetadata w = false ->
  let s := wakes (call (applySchemaAndMetadata this) {| world := w; calls := [] |})
                 schedule in
  exists p, calls s = [p]
            /\ (applyingSchemaAndMetadata (world s) = false
                <-> p = Finished (inr tt)).
Proof.
  intros Hw s.
  destruct (Release.one_call_releases_wakes _ schedule
              (Release.one_call_releases_start this w Hw))
    as (p & Hc & Hflag & _).
  exists p. split; [exact Hc|]. fold s in Hflag. unfold flag_as_settled in Hflag.
  rewrite Hflag. destruct p as [[e|[]]|c k|d k|k]; split; done.
Qed.

Lemma applying_flag_is_cleared_on_completion_only_witness :
  let s := wakes (call (applySchemaAndMetadata example_client)
                       {| world := constructed; calls := [] |})
                 [(0%nat, Exited example_exit); (0%nat, Exited example_exit);
                  (0%nat, Exited example_exit); (0%nat, Exited example_exit)] in
  applyingSchemaAndMetadata constructed = false
  /\ calls s = [Finished (inr tt)]
  /\ applyingSchemaAndMetadata (world s) = false.
Proof.
  intros s. split; [reflexivity|].
  assert (Hc : calls s = [Finished (inr tt)]) by (vm_compute; reflexivity).
  split; [exact Hc|].
  destruct (applying_flag_is_cleared_on_completion_only example_client constructed
              [(0%nat, Exited example_exit); (0%nat, Exited example_exit);
               (0%nat, Exited example_exit); (0%nat, Exited example_exit)] eq_refl)
    as (p & Hp & Hiff).
  fold s in Hp, Hiff. apply Hiff. rewrite Hc in Hp. by injection Hp as <-.
Defined.

(** C1 (where the claim fails). When the roll-back fails ten times, the
    tenth failure is reported with no retry left, and the flag is still set:
    nothing on this path resets it, neither then nor with any later
    event. *)
Lemma applying_flag_not_cleared_on_terminal_failure :
  let e := {| message := "connection refused" |} in
  let s := wakes (call (applySchemaAndMetadata example_client)
                       {| world := constructed; calls := [] |})
                 (ten_failures e) in
  last (trace (world s))
  = Some (EvReport "Applying PostgreSQL schema migrations" 10 0 e)
  /\ forall later, applyingSchemaAndMetadata (world (wakes s later)) = true.
Proof.
  intros e s. split; [vm_compute; reflexivity|]. intros later.
  assert (Hc : calls s = [Finished (inl e)]) by (vm_compute; reflexivity).
  rewrite (Release.wakes_finished s (inl e) later Hc).
  vm_compute. reflexivity.
Qed.

(** ** Retried units *)

Module RetryFacts.
Import ProcFacts ApplyFacts.

Lemma exec_log_emit ev w :
  exec_log (trace (emit ev w)) = exec_log (trace w) ++ exec_log [ev].
Proof. unfold exec_log, emit. cbn [trace]. apply omap_app. Qed.

Lemma run_hasuraCli env this command w :
  let r := exec_result env (length (filter is_exec (trace w)))
                       (cmdline this command) in
  run env (hasuraCli this command) w
  = (if exec_error r is Some e then inl e else inr tt,
     emit (EvLog Debug (stdout r)) (emit (EvExec (cmdline this command) r) w)).
Proof. intros r. unfold hasuraCli. cbn [run]. fold r. by destruct (exec_error r). Qed.

Lemma run_hasuraCli_log env this command w :
  exec_log (trace (run env (hasuraCli this command) w).2)
  = exec_log (trace w)
    ++ [(cmdline this command, succeeded (run env (hasuraCli this command) w).1)].
Proof.
  rewrite run_hasuraCli. cbn [fst snd]. rewrite !exec_log_emit, <- app_assoc.
  f_equal. unfold exec_log. cbn [omap list_omap app]. do 2 f_equal.
  destruct (exec_error _) as [e|]; cbn [succeeded];
    [by rewrite bool_decide_eq_false_2 | by rewrite bool_decide_eq_true_2].
Qed.

(** One attempt at a unit. *)
Lemma run_unit env this c1 c2 w :
  let r := run env (hasuraCli this c1;; hasuraCli this c2) w in
  exists t, exec_log (trace r.2) = exec_log (trace w) ++ t
            /\ unit_attempt (cmdline this c1) (cmdline this c2) t (succeeded r.1).
Proof.
  cbn zeta. rewrite run_bind.
  pose proof (run_hasuraCli_log env this c1 w) as H1.
  destruct (run env (hasuraCli this c1) w) as [[e1|[]] w1]; cbn [fst snd] in *.
  { eexists. split; [exact H1 | constructor]. }
  pose proof (run_hasuraCli_log env this c2 w1) as H2.
  destruct (run env (hasuraCli this c2) w1) as [[e2|[]] w2]; cbn [fst snd] in *.
  - eexists. split; [by rewrite H2, H1, <- app_assoc | constructor].
  - eexists. split; [by rewrite H2, H1, <- app_assoc | constructor].
Qed.

Lemma run_onFailedAttempt env operation error w :
  run env (onFailedAttempt (retry_options operation) error) w
  = (inr tt, emit (EvReport operation (attemptNumber error) (retriesLeft error)
                            (failure error)) w).
Proof. reflexivity. Qed.

(** A unit under the retrier. *)
Lemma run_retried_unit env this c1 c2 operation remaining attempt w :
  let r := run env (retry_from (fun _ => hasuraCli this c1;; hasuraCli this c2)
                               (retry_options operation) remaining attempt) w in
  exists t, exec_log (trace r.2) = exec_log (trace w) ++ t
            /\ retried_unit (cmdline this c1) (cmdline this c2)
                            (S remaining) t (succeeded r.1).
Proof.
  cbn zeta. revert attempt w.
  induction remaining as [|remaining IH]; intros attempt w;
    cbn [retry_from]; rewrite run_bind, run_try;
    destruct (run_unit env this c1 c2 w) as (t & Ht & Hu);
    destruct (run env (hasuraCli this c1;; hasuraCli this c2) w) as [[e|[]] w1];
    cbn [fst snd succeeded] in *.
  - rewrite run_bind, run_onFailedAttempt. cbn [run fst snd succeeded].
    exists t. split; [|by constructor].
    rewrite exec_log_emit, Ht. apply app_nil_r.
  - cbn [run fst snd succeeded]. exists t. split; [done | by constructor].
  - rewrite run_bind, run_onFailedAttempt. cbn [run].
    match goal with |- context [run env (retry_from ?i ?o remaining ?a) ?w2] =>
      destruct (IH a w2) as (ts & Hts & Hr) end.
    exists (t ++ ts). split; [|by econstructor].
    rewrite Hts, !exec_log_emit, Ht. cbn [exec_log omap list_omap].
    by rewrite !app_nil_r, app_assoc.
  - cbn [run fst snd succeeded]. exists t. split; [done | by constructor].
Qed.

Lemma run_critical_section env this w :
  let r := run env (critical_section this) w in
  exists new, exec_log (trace r.2) = exec_log (trace w) ++ new
              /\ apply_sequence this new (succeeded r.1).
Proof.
  cbn zeta. unfold critical_section, pRetry. rewrite run_bind.
  destruct (run_retried_unit env this migrate_down migrate_up
              "Applying PostgreSQL schema migrations" 9 1 w) as (t1 & Ht1 & Hu1).
  fold (migrations this) in *. cbn [retries retry_options] in *.
  destruct (run env (retry_from (fun _ => migrations this) _ 9 1) w)
    as [[e1|[]] w1]; cbn [fst snd succeeded] in *.
  { exists t1. split; [done|]. exists t1, [], false.
    by rewrite app_nil_r. }
  rewrite run_bind.
  destruct (run_retried_unit env this metadata_clear metadata_apply
              "Applying Hasura metadata" 9 1 w1) as (t2 & Ht2 & Hu2).
  fold (metadata this) in *.
  destruct (run env (retry_from (fun _ => metadata this) _ 9 1) w1)
    as [[e2|[]] w2]; cbn [fst snd succeeded run set_applying trace] in *.
  - exists (t1 ++ t2). split; [by rewrite Ht2, Ht1, app_assoc|].
    by exists t1, t2, true.
  - exists (t1 ++ t2). split; [by rewrite Ht2, Ht1, app_assoc|].
    by exists t1, t2, true.
Qed.

(** *** Operations that always fail *)

Lemma run_failed_attempts {A} env (input : nat -> proc A) operation
    remaining attempt w :
  (forall n w0, exists e, (run env (input n) w0).1 = inl e) ->
  exists e w',
    run env (retry_from input (retry_options operation) remaining attempt) w
    = (inl e, w')
    /\ failed_attempts env input operation attempt (S remaining) w w' e.
Proof.
  intros Hfail. revert attempt w.
  induction remaining as [|remaining IH]; intros attempt w;
    cbn [retry_from]; rewrite run_bind, run_try;
    destruct (Hfail attempt w) as [e He];
    destruct (run env (input attempt) w) as [r w1] eqn:E; cbn [fst snd] in *;
    subst r; rewrite run_bind, run_onFailedAttempt;
    cbn [run failure attemptNumber retriesLeft factor retry_options].
  - eexists _, _. split; [reflexivity | by constructor].
  - match goal with |- context [run env (retry_from ?i ?o remaining ?a) ?w2] =>
      destruct (IH a w2) as (e' & w' & Hrun & Hfa) end.
    exists e', w'. split; [done | by econstructor].
Qed.

End RetryFacts.

(** C8. The commands of a run are those of the migrations unit to the end of
    its retries, followed, only when that unit succeeded, by those of the
    metadata unit. Each unit is retried as a whole: every attempt starts over
    with the first command of the unit, also after a failure of the second,
    and there are at most ten attempts. *)
Theorem units_run_in_sequence_and_retry_whole
    (env : Env) (this : HasuraClient) (w : World) :
  applyingSchemaAndMetadata w = false ->
  let r := run env (applySchemaAndMetadata this) w in
  exists new,
    exec_log (trace r.2) = exec_log (trace w) ++ new
    /\ apply_sequence this new (succeeded r.1).
Proof.
  intros Hw. cbn zeta. rewrite ApplyFacts.run_apply_idle by done.
  apply (RetryFacts.run_critical_section env this (set_applying true w)).
Qed.

Lemma units_run_in_sequence_and_retry_whole_witness :
  let r := run (flaky 2) (applySchemaAndMetadata example_client) constructed in
  applyingSchemaAndMetadata constructed = false
  /\ exec_log (trace r.2)
     = [ (cmdline example_client migrate_down, true);
         (cmdline example_client migrate_up, false);
         (cmdline example_client migrate_down, true);
         (cmdline example_client migrate_up, true);
         (cmdline example_client metadata_clear, true);
         (cmdline example_client metadata_apply, true) ]
  /\ exists new, exec_log (trace r.2) = exec_log (trace constructed) ++ new
                 /\ apply_sequence example_client new (succeeded r.1).
Proof.
  intros r. split; [reflexivity|]. split; [vm_compute; reflexivity|].
  exact (units_run_in_sequence_and_retry_whole (flaky 2) example_client
           constructed eq_refl).
Defined.

(** C9. Under the policy of the client, nine retries with factor 1.75, an
    operation that fails on every attempt is invoked exactly ten times, each
    failure is reported, and the error that the retrier raises is the error
    of the tenth attempt as the operation raised it. *)
Theorem retrier_raises_the_last_error {A}
    (env : Env) (input : nat -> proc A) (operation : string) (w : World) :
  (forall n w0, exists e, (run env (input n) w0).1 = inl e) ->
  exists e w',
    run env (pRetry input (retry_options operation)) w = (inl e, w')
    /\ failed_attempts env input operation 1 10 w w' e.
Proof. intros Hfail. by apply RetryFacts.run_failed_attempts. Qed.

Lemma retrier_raises_the_last_error_witness :
  let e := {| message := "connection refused" |} in
  let input := fun _ : nat => migrations example_client in
  (forall n w0, exists e', (run (always_failing e) (input n) w0).1 = inl e')
  /\ exists e' w',
       run (always_failing e)
           (pRetry input (retry_options "Applying PostgreSQL schema migrations"))
           constructed = (inl e', w')
       /\ failed_attempts (always_failing e) input
            "Applying PostgreSQL schema migrations" 1 10 constructed w' e'.
Proof.
  intros e input.
  assert (Hfail : forall n w0,
            exists e', (run (always_failing e) (input n) w0).1 = inl e').
  { intros n w0. exists e. reflexivity. }
  split; [exact Hfail|].
  exact (retrier_raises_the_last_error (always_failing e) input _ constructed Hfail).
Defined.

(** ** The schema *)

Module SchemaFacts.

Lemma run_check_types env ts schema w :
  run env (check_types ts schema) w
  = (if head (missing schema ts) is Some t
     then inl (missing_type_error t) else inr schema, w).
Proof.
  unfold missing. induction ts as [|t ts IH]; [done|].
  cbn [check_types]. rewrite filter_cons.
  destruct (getType schema t) as [kind|] eqn:E.
  - rewrite decide_False by done. apply IH.
  - rewrite decide_True by done. reflexivity.
Qed.

Lemma coreTypes_required t : t ∈ coreTypes <-> t ∈ required_types.
Proof.
  unfold coreTypes, required_types. rewrite !elem_of_cons, !elem_of_nil. tauto.
Qed.

Lemma run_buildHasuraSchema env this w remote :
  introspection env (length (filter is_introspect (trace w))) = Introspected remote ->
  (run env (buildHasuraSchema this) w).1
  = if head (missing (wrapSchema remote) coreTypes) is Some t
    then inl (missing_type_error t) else inr (wrapSchema remote).
Proof.
  intros Hr. unfold buildHasuraSchema. cbn [run]. rewrite Hr.
  rewrite run_check_types. cbn [fst]. by destruct (head _).
Qed.

End SchemaFacts.

(** C6. When the introspection answers a remote schema that lacks one of the
    types [Block], [Cardano], [Epoch] and [Transaction], [buildHasuraSchema]
    fails with the error [Remote schema is missing t] for a type [t] of these
    that the schema lacks; when the remote schema has them all, it returns the
    wrapped schema. *)
Theorem buildHasuraSchema_requires_core_types
    (env : Env) (this : HasuraClient) (w : World) (remote : GraphQLSchema) :
  introspection env (length (filter is_introspect (trace w))) = Introspected remote ->
  let r := run env (buildHasuraSchema this) w in
  ((exists t, t ∈ required_types /\ getType remote t = None) ->
   exists t, t ∈ required_types /\ getType remote t = None
             /\ r.1 = inl (missing_type_error t))
  /\ ((forall t, t ∈ required_types -> is_Some (getType remote t)) ->
      r.1 = inr (wrapSchema remote)).
Proof.
  intros Hr. cbn zeta. rewrite (SchemaFacts.run_buildHasuraSchema env this w remote Hr).
  unfold wrapSchema.
  destruct (head (missing remote coreTypes)) as [t|] eqn:E.
  - apply head_Some_elem_of in E. unfold missing in E.
    apply list_elem_of_filter in E as [Hmiss Hin].
    apply SchemaFacts.coreTypes_required in Hin. split.
    + intros _. by exists t.
    + intros Hall. destruct (Hall t Hin) as [kind Hk]. congruence.
  - apply head_None in E. split; [|done].
    intros (t & Hin & Hmiss). exfalso.
    apply SchemaFacts.coreTypes_required in Hin.
    assert (Ht : t ∈ missing remote coreTypes)
      by (by apply list_elem_of_filter).
    rewrite E in Ht. by apply elem_of_nil in Ht.
Qed.

Lemma buildHasuraSchema_requires_core_types_witness :
  let env := healthy schema_without_transaction in
  introspection env (length (filter is_introspect (trace constructed)))
  = Introspected schema_without_transaction
  /\ (run env (buildHasuraSchema example_client) constructed).1
     = inl (missing_type_error "Transaction")
  /\ (run (healthy complete_schema) (buildHasuraSchema example_client) constructed).1
     = inr (wrapSchema complete_schema).
Proof.
  intros env. split; [reflexivity|]. split.
  - destruct (proj1 (buildHasuraSchema_requires_core_types env example_client
                       constructed schema_without_transaction eq_refl))
      as (t & Hin & Hmiss & Hrun).
    { exists "Transaction". split; [|reflexivity].
      unfold required_types. do 3 apply list_elem_of_further. apply list_elem_of_here. }
    unfold required_types in Hin.
    repeat (apply elem_of_cons in Hin as [->|Hin];
            [first [exact Hrun | vm_compute in Hmiss; discriminate Hmiss]|]).
    by apply elem_of_nil in Hin.
  - apply (proj2 (buildHasuraSchema_requires_core_types (healthy complete_schema)
                    example_client constructed complete_schema eq_refl)).
    intros t Ht. unfold required_types in Ht.
    repeat (apply elem_of_cons in Ht as [->|Ht]; [by eexists|]).
    by apply elem_of_nil in Ht.
Defined.

(** ** The circulating supply *)

Example circulating_supply :
  getAdaCirculatingSupply
    (Js.Fulfilled {| rewards_sum_amount := Some "10";
                     utxos_sum_value := Some "100";
                     withdrawals_sum_amount := Some "3" |})
  = Js.Normal (Js.Fulfilled "107").
Proof. reflexivity. Qed.

(** C2 (what the code does). The producer returns the promise of
    [getAdaCirculatingSupply] without awaiting it, so its [catch] block never
    runs: when the query fails, with the message of the near-tip condition or
    with any other, the producer logs nothing, and the one who awaits its
    result, the fetcher, gets the error. *)
Theorem producer_passes_every_rejection_on (e : Error) :
  adaCirculatingSupply_producer (Js.Rejected e)
  = (Js.Normal (Some (Js.Rejected e)), [])
  /\ Js.awaited (adaCirculatingSupply_producer (Js.Rejected e)).1 = Js.Rejected e
  /\ (let not_ready := {| message := not_ready_message |} in
      adaCirculatingSupply_producer (Js.Rejected not_ready)
      = (Js.Normal (Some (Js.Rejected not_ready)), [])
      /\ Js.awaited (adaCirculatingSupply_producer (Js.Rejected not_ready)).1
         = Js.Rejected not_ready).
Proof. repeat split. Qed.

(** * More properties *)

(** ** The balance aggregation on every input *)

Module AggregateMore.
Import JsMap JsMapFacts BigNumber BigNumberFacts.
Import AggregateFacts AggregateSpec AggregateOrder.

Implicit Types (k : string) (b : AssetBalance) (l : list TransactionOutput).

Lemma quantities_at_key_all k l :
  quantity <$> at_key k (l ≫= utxo_entries) = arrivals k l.
Proof.
  rewrite at_key_utxo_entries. unfold arrivals.
  induction l as [|u l IH]; [done|].
  rewrite !bind_cons, fmap_app, IH. f_equal.
  rewrite fmap_app, <- list_fmap_compose. f_equal.
  by destruct (decide ("ada" = k)).
Qed.

(** A balance of the summary is the entry of the key of its asset id. *)
Lemma balance_lookup l b :
  b ∈ values (aggregate l) ->
  entry_of (at_key (assetId (asset b)) (l ≫= utxo_entries)) = Some b.
Proof.
  unfold values. intros ([k b'] & -> & Hin)%list_elem_of_fmap. cbn [snd].
  rewrite (aggregate_key _ _ _ Hin), <- get_aggregate.
  apply elem_of_get; [apply NoDup_keys_aggregate | done].
Qed.

Lemma balance_quantity l b :
  b ∈ values (aggregate l) ->
  arrivals (assetId (asset b)) l <> []
  /\ quantity b = merged_quantity (arrivals (assetId (asset b)) l).
Proof.
  intros Hb%balance_lookup. rewrite <- quantities_at_key_all.
  destruct (at_key _ _) as [|b0 bs]; [done|]. injection Hb as <-. done.
Qed.

Lemma arrivals_quantities k l q : q ∈ arrivals k l -> q ∈ all_quantities l.
Proof.
  unfold arrivals, all_quantities.
  intros (u & Hq & Hu)%list_elem_of_bind. apply list_elem_of_bind.
  exists u. split; [|done]. apply elem_of_app in Hq as [Hq|Hq].
  - destruct (decide ("ada" = k)); [|by apply elem_of_nil in Hq].
    apply list_elem_of_singleton in Hq as ->. apply list_elem_of_here.
  - apply list_elem_of_fmap in Hq as (t & -> & [_ Ht]%list_elem_of_filter).
    apply list_elem_of_further, list_elem_of_fmap. eauto.
Qed.

(** *** The order of the balances *)

Lemma keys_add_entry_order m (e : string * AssetBalance) :
  keys (add_entry m e)
  = if decide (e.1 ∈ keys m) then keys m else keys m ++ [e.1].
Proof. unfold add_entry. destruct (get e.1 m); apply keys_set. Qed.

Lemma keys_fold_order (es : list (string * AssetBalance)) m :
  keys (fold_left add_entry es m) = first_occurrences_from (keys m) es.*1.
Proof.
  revert m. induction es as [|e es IH]; intros m; [done|].
  cbn [fold_left]. rewrite IH, keys_add_entry_order. done.
Qed.

Lemma keys_utxo_entries l : (l ≫= utxo_entries).*1 = keys_in_order l.
Proof.
  unfold keys_in_order. induction l as [|u l IH]; [done|].
  rewrite !bind_cons, fmap_app, IH. f_equal.
  unfold utxo_entries. rewrite fmap_cons, <- list_fmap_compose. done.
Qed.

Lemma first_occurrences_from_prefix seen xs :
  exists more, first_occurrences_from seen xs = seen ++ more.
Proof.
  revert seen. induction xs as [|x xs IH]; intros seen; cbn [first_occurrences_from].
  - exists []. by rewrite app_nil_r.
  - destruct (decide (x ∈ seen)); [apply IH|].
    destruct (IH (seen ++ [x])) as [more Hm]. exists (x :: more).
    by rewrite Hm, <- app_assoc.
Qed.

(** *** The asset of a balance *)

Lemma at_key_tokens k l :
  k <> "ada" ->
  at_key k (l ≫= utxo_entries)
  = Token_as_AssetBalance
      <$> filter (fun t => assetId (token_asset t) = k) (all_tokens l).
Proof.
  intros Hk. rewrite at_key_utxo_entries. unfold all_tokens.
  induction l as [|u l IH]; [done|].
  rewrite !bind_cons, filter_app, fmap_app, IH.
  by rewrite decide_False by done.
Qed.

End AggregateMore.

(** X1. Every quantity of the summary is, for the quantities that arrived
    under the id of its asset, the one quantity as it came when it is the
    only one, and the printed sum of them otherwise; at least one
    arrived. *)
Theorem balance_is_first_quantity_or_printed_sum
    (l : list TransactionOutput) (count : Z) (b : AssetBalance) :
  b ∈ balances_of l count ->
  match arrivals (assetId (asset b)) l with
  | [] => False
  | [q] => quantity b = q
  | qs => quantity b = BigNumber.toString (sum_quantities qs)
  end.
Proof.
  unfold balances_of, getPaymentAddressSummary. cbn [assetBalances utxos].
  intros [Hne Hq]%AggregateMore.balance_quantity.
  destruct (arrivals (assetId (asset b)) l) as [|q [|q' qs]]; done.
Qed.

Lemma balance_is_first_quantity_or_printed_sum_witness :
  let b := {| asset := ada_asset; quantity := "007" |} in
  b ∈ balances_of [ {| value := "007"; tokens := [] |} ] 1
  /\ quantity b = "007".
Proof.
  intros b.
  assert (Hb : b ∈ balances_of [ {| value := "007"; tokens := [] |} ] 1)
    by (vm_compute; apply list_elem_of_here).
  split; [exact Hb|].
  exact (balance_is_first_quantity_or_printed_sum _ 1 b Hb).
Defined.

(** X2. For unsigned decimal quantities, every quantity of the summary, read
    as a number, is the exact sum of all the quantities that arrived under
    the id of its asset; a token that goes by the id ["ada"] is counted into
    the base currency. *)
Theorem balances_sum_all_arrivals
    (l : list TransactionOutput) (count : Z) (b : AssetBalance) :
  well_formed l ->
  b ∈ balances_of l count ->
  BigNumber.of_string (quantity b)
  = BigNumber.Int (exact_sum (arrivals (assetId (asset b)) l)).
Proof.
  intros Hwf. unfold balances_of, getPaymentAddressSummary.
  cbn [assetBalances utxos].
  intros [Hne Hq]%AggregateMore.balance_quantity. rewrite Hq.
  rewrite AggregateFacts.of_string_merged_quantity by done.
  apply AggregateSpec.sum_quantities_exact.
  unfold well_formed in Hwf. rewrite Forall_forall in Hwf |- *.
  intros q Hq'. eapply Hwf, AggregateMore.arrivals_quantities, Hq'.
Qed.

Lemma balances_sum_all_arrivals_witness :
  let b := {| asset := ada_asset; quantity := "3000005" |} in
  well_formed example_utxos_with_ada_token
  /\ b ∈ balances_of example_utxos_with_ada_token 2
  /\ BigNumber.of_string (quantity b) = BigNumber.Int 3000005.
Proof.
  intros b.
  assert (Hwf : well_formed example_utxos_with_ada_token).
  { unfold well_formed. vm_compute all_quantities.
    repeat constructor; eexists; vm_compute; reflexivity. }
  assert (Hb : b ∈ balances_of example_utxos_with_ada_token 2)
    by (vm_compute; apply list_elem_of_here).
  split_and!; [exact Hwf | exact Hb |].
  exact (balances_sum_all_arrivals _ 2 b Hwf Hb).
Defined.

(** X3. The balances come in the order in which the loops first set their
    keys: the asset ids of the summary are the keys ["ada"], token ids of the
    first record, ["ada"], token ids of the second record, and so on, each
    kept where it first occurs. *)
Theorem balances_in_order_of_first_appearance
    (l : list TransactionOutput) (count : Z) :
  assetId ∘ asset <$> balances_of l count = first_occurrences (keys_in_order l).
Proof.
  unfold balances_of, getPaymentAddressSummary. cbn [assetBalances utxos].
  rewrite AggregateSpec.values_ids, AggregateFacts.aggregate_entries.
  rewrite AggregateMore.keys_fold_order, AggregateMore.keys_utxo_entries.
  reflexivity.
Qed.

(** X4. The balance of the base currency carries the asset that the client
    makes up for it, also when a token goes by the id ["ada"]; every other
    balance carries the asset of the first token of its id in the input,
    whatever later tokens of that id say. *)
Theorem balance_asset_is_that_of_first_token
    (l : list TransactionOutput) (count : Z) (b : AssetBalance) :
  b ∈ balances_of l count ->
  if decide (assetId (asset b) = "ada") then asset b = ada_asset
  else exists t,
      head (filter (fun t => assetId (token_asset t) = assetId (asset b))
                   (all_tokens l)) = Some t
      /\ asset b = token_asset t.
Proof.
  unfold balances_of, getPaymentAddressSummary. cbn [assetBalances utxos].
  intros Hb%AggregateMore.balance_lookup.
  pose proof (f_equal (fmap asset) Hb) as Ha.
  rewrite AggregateOrder.asset_entry_of in Ha. cbn in Ha.
  destruct (decide (assetId (asset b) = "ada")) as [Hk|Hk].
  - rewrite Hk, AggregateOrder.head_at_key_ada in Ha.
    destruct l; by simplify_eq.
  - rewrite AggregateMore.at_key_tokens in Ha by done.
    destruct (filter _ (all_tokens l)) as [|t ts]; [done|].
    exists t. cbn in Ha. by simplify_eq.
Qed.

Lemma balance_asset_is_that_of_first_token_witness :
  let b := Token_as_AssetBalance (token_of "A" "12") in
  b ∈ balances_of example_utxos 2 /\ asset b = token_asset (token_of "A" "5").
Proof.
  intros b.
  assert (Hb : b ∈ balances_of example_utxos 2)
    by (vm_compute; apply list_elem_of_further, list_elem_of_here).
  split; [exact Hb|].
  pose proof (balance_asset_is_that_of_first_token example_utxos 2 b Hb) as H.
  rewrite decide_False in H by discriminate.
  destruct H as (t & Ht & ->). vm_compute in Ht. by simplify_eq.
Defined.

(** X5. As soon as there is a record, the first balance of the summary is
    that of the base currency, with the asset the client makes up for it; so
    the summary has no balance only when there is no record. *)
Theorem first_balance_is_ada
    (u : TransactionOutput) (l : list TransactionOutput) (count : Z) :
  exists q rest,
    balances_of (u :: l) count = {| asset := ada_asset; quantity := q |} :: rest.
Proof.
  unfold balances_of, getPaymentAddressSummary. cbn [assetBalances utxos].
  pose proof (AggregateMore.keys_fold_order ((u :: l) ≫= utxo_entries) JsMap.empty)
    as Hkeys.
  rewrite <- AggregateFacts.aggregate_entries in Hkeys.
  rewrite bind_cons in Hkeys. unfold utxo_entries at 1 in Hkeys.
  rewrite <- app_comm_cons, fmap_cons in Hkeys. cbn [first_occurrences_from fst] in Hkeys.
  rewrite decide_False in Hkeys by apply not_elem_of_nil.
  match type of Hkeys with _ = first_occurrences_from ?seen ?xs =>
    destruct (AggregateMore.first_occurrences_from_prefix seen xs) as [more Hmore]
  end.
  assert (Hk0 : JsMap.keys (aggregate (u :: l)) = "ada" :: more)
    by (rewrite Hkeys, Hmore; reflexivity).
  clear Hkeys Hmore.
  destruct (aggregate (u :: l)) as [|[k b] m] eqn:Hagg; [done|].
  injection Hk0 as -> _.
  assert (Hb : b ∈ JsMap.values (aggregate (u :: l))).
  { rewrite Hagg. apply list_elem_of_here. }
  apply AggregateMore.balance_lookup in Hb.
  assert (Hk : assetId (asset b) = "ada").
  { apply (AggregateSpec.aggregate_key _ _ (u :: l)). rewrite Hagg.
    apply list_elem_of_here. }
  rewrite Hk in Hb. pose proof (f_equal (fmap asset) Hb) as Ha.
  rewrite AggregateOrder.asset_entry_of, AggregateOrder.head_at_key_ada in Ha.
  cbn in Ha. exists (quantity b), (JsMap.values m). cbn.
  f_equal. destruct b as [a q]. cbn in *. by simplify_eq.
Qed.

(** ** The circulating supply *)

Module SupplyFacts.
Import BigNumber BigNumberFacts AggregateSpec.

Lemma plus_NaN_r (a : BigNumber.t) : plus a NaN = NaN.
Proof. by destruct a. Qed.

Lemma minus_NaN_r (a : BigNumber.t) : minus a NaN = NaN.
Proof. by destruct a. Qed.

End SupplyFacts.

(** X6. When the query answers three sums that are unsigned decimal integers,
    [getAdaCirculatingSupply] fulfils with a string that, read as a number,
    is exactly utxos + rewards - withdrawals, also beyond the range of
    floating-point integers and also when the withdrawals exceed the rest. *)
Theorem circulating_supply_is_exact (rewards utxos withdrawals : string) :
  unsigned_decimal rewards -> unsigned_decimal utxos ->
  unsigned_decimal withdrawals ->
  exists supply,
    getAdaCirculatingSupply
      (Js.Fulfilled {| rewards_sum_amount := Some rewards;
                       utxos_sum_value := Some utxos;
                       withdrawals_sum_amount := Some withdrawals |})
    = Js.Normal (Js.Fulfilled supply)
    /\ BigNumber.of_string supply
       = BigNumber.Int (decimal_value utxos + decimal_value rewards
                        - decimal_value withdrawals).
Proof.
  intros Hr Hu Hw.
  exists (BigNumber.toString
            (BigNumber.plus (BigNumber.of_string utxos)
               (BigNumber.minus (BigNumber.of_string rewards)
                                (BigNumber.of_string withdrawals)))).
  split; [reflexivity|].
  rewrite (AggregateSpec.of_string_unsigned _ Hr),
          (AggregateSpec.of_string_unsigned _ Hu),
          (AggregateSpec.of_string_unsigned _ Hw).
  cbn [BigNumber.minus BigNumber.plus].
  rewrite BigNumberFacts.of_string_toString. f_equal. lia.
Qed.

Lemma circulating_supply_is_exact_witness :
  unsigned_decimal "9007199254740993" /\ unsigned_decimal "45000000000000000"
  /\ unsigned_decimal "3"
  /\ exists supply,
      getAdaCirculatingSupply
        (Js.Fulfilled {| rewards_sum_amount := Some "9007199254740993";
                         utxos_sum_value := Some "45000000000000000";
                         withdrawals_sum_amount := Some "3" |})
      = Js.Normal (Js.Fulfilled supply)
      /\ BigNumber.of_string supply = BigNumber.Int 54007199254740990.
Proof.
  assert (H1 : unsigned_decimal "9007199254740993") by (eexists; vm_compute; reflexivity).
  assert (H2 : unsigned_decimal "45000000000000000") by (eexists; vm_compute; reflexivity).
  assert (H3 : unsigned_decimal "3") by (eexists; vm_compute; reflexivity).
  split_and!; [exact H1 | exact H2 | exact H3 |].
  exact (circulating_supply_is_exact _ _ _ H1 H2 H3).
Defined.

(** X7. A sum over no row is [null], and a [null] makes the supply no number:
    when one of the three sums is [null], [getAdaCirculatingSupply] does not
    fail, it fulfils with the string [NaN], whatever the other sums are, and
    the producer hands that string to the fetcher as the new value. *)
Theorem circulating_supply_of_null_sum (data : SupplyData) :
  rewards_sum_amount data = None \/ utxos_sum_value data = None
  \/ withdrawals_sum_amount data = None ->
  getAdaCirculatingSupply (Js.Fulfilled data) = Js.Normal (Js.Fulfilled "NaN")
  /\ Js.awaited (adaCirculatingSupply_producer (Js.Fulfilled data)).1
     = Js.Fulfilled (Some "NaN").
Proof.
  intros H.
  assert (Hs : getAdaCirculatingSupply (Js.Fulfilled data)
               = Js.Normal (Js.Fulfilled "NaN")); [|split; [exact Hs|]].
  2: { unfold adaCirculatingSupply_producer. by rewrite Hs. }
  destruct data as [r u w]. cbn [rewards_sum_amount utxos_sum_value
                                 withdrawals_sum_amount] in H.
  unfold getAdaCirculatingSupply, Js.async, Js.await. do 2 f_equal.
  change "NaN" with (BigNumber.toString BigNumber.NaN). f_equal.
  destruct H as [-> | [-> | ->]]; cbn [BigNumber.of_nullable from_option].
  - cbn [BigNumber.minus]. apply SupplyFacts.plus_NaN_r.
  - reflexivity.
  - rewrite SupplyFacts.minus_NaN_r. apply SupplyFacts.plus_NaN_r.
Qed.

Lemma circulating_supply_of_null_sum_witness :
  let data := {| rewards_sum_amount := None;
                 utxos_sum_value := Some "45000000000000000";
                 withdrawals_sum_amount := Some "0" |} in
  rewards_sum_amount data = None
  /\ getAdaCirculatingSupply (Js.Fulfilled data) = Js.Normal (Js.Fulfilled "NaN").
Proof.
  intros data. split; [reflexivity|].
  exact (proj1 (circulating_supply_of_null_sum data (or_introl eq_refl))).
Defined.

(** ** More of the schema synchroniser *)

Module ApplyMore.
Import ProcFacts ApplyFacts RetryFacts.

Lemma unit_attempt_shape c1 c2 t ok :
  unit_attempt c1 c2 t ok ->
  (1 <= length t <= 2)%nat
  /\ Forall (fun x => x.1 = c1 \/ x.1 = c2) t
  /\ (ok = true -> t = [(c1, true); (c2, true)]).
Proof.
  destruct 1; cbn; split_and!; try lia; try done;
    repeat (first [apply Forall_nil_2 | apply Forall_cons_2]); cbn; auto.
Qed.

Lemma retried_unit_shape c1 c2 n t ok :
  retried_unit c1 c2 n t ok ->
  (1 <= length t <= 2 * n)%nat
  /\ Forall (fun x => x.1 = c1 \/ x.1 = c2) t
  /\ (ok = true -> exists pre, t = pre ++ [(c1, true); (c2, true)]).
Proof.
  induction 1 as [n t Hu|t Hu|n t ts ok Hu Hr IH].
  - destruct (unit_attempt_shape _ _ _ _ Hu) as (Hlen & Hall & Hok).
    split_and!; [lia | lia | done |]. intros _. exists []. by rewrite Hok.
  - destruct (unit_attempt_shape _ _ _ _ Hu) as (Hlen & Hall & Hok).
    split_and!; [lia | lia | done | done].
  - destruct (unit_attempt_shape _ _ _ _ Hu) as (Hlen & Hall & _).
    destruct IH as (Hlen' & Hall' & Hok').
    rewrite length_app. split_and!; [lia | lia | by apply Forall_app |].
    intros Hok. destruct (Hok' Hok) as [pre ->]. exists (t ++ pre).
    by rewrite app_assoc.
Qed.

Lemma run_critical_section_flag env this w :
  let r := run env (critical_section this) w in
  applyingSchemaAndMetadata r.2
  = if succeeded r.1 then false else applyingSchemaAndMetadata w.
Proof.
  cbn zeta. unfold critical_section. rewrite run_bind.
  pose proof (run_flag_free env _ w (flag_free_retried_migrations this)) as H1.
  destruct (run env (pRetry _ _) w) as [[e1|[]] w1]; cbn [fst snd] in *; [done|].
  rewrite run_bind.
  pose proof (run_flag_free env _ w1 (flag_free_retried_metadata this)) as H2.
  destruct (run env (pRetry _ _) w1) as [[e2|[]] w2]; cbn [fst snd] in *.
  - cbn [succeeded]. congruence.
  - reflexivity.
Qed.

End ApplyMore.

(** X8. A call that finds the flag clear and resolves has cleared the flag
    again, and the last commands it ran in each unit succeeded: the command
    log ends with the roll-back and the migration up, both successful, any
    attempts at the metadata that failed, and [metadata clear] and
    [metadata apply], both successful. A later call therefore applies again:
    it runs at least one command. *)
Theorem resolved_apply_has_applied
    (env : Env) (this : HasuraClient) (w w' : World) :
  applyingSchemaAndMetadata w = false ->
  run env (applySchemaAndMetadata this) w = (inr tt, w') ->
  applyingSchemaAndMetadata w' = false
  /\ (exists pre1 pre2,
        exec_log (trace w')
        = exec_log (trace w) ++ pre1
          ++ [(cmdline this migrate_down, true); (cmdline this migrate_up, true)]
          ++ pre2
          ++ [(cmdline this metadata_clear, true);
              (cmdline this metadata_apply, true)])
  /\ forall env',
       (length (exec_log (trace w'))
        < length (exec_log (trace (run env' (applySchemaAndMetadata this) w').2)))%nat.
Proof.
  intros Hw Hrun. rewrite ApplyFacts.run_apply_idle in Hrun by done.
  pose proof (ApplyMore.run_critical_section_flag env this (set_applying true w)) as Hflag.
  destruct (RetryFacts.run_critical_section env this (set_applying true w))
    as (new & Hnew & Hseq).
  rewrite Hrun in Hflag, Hnew, Hseq. cbn [fst snd succeeded] in *.
  split_and!; [exact Hflag| |].
  - destruct Hseq as (t1 & t2 & [] & -> & H1 & H2); [|by destruct H2].
    apply ApplyMore.retried_unit_shape in H1 as (_ & _ & Hok1).
    apply ApplyMore.retried_unit_shape in H2 as (_ & _ & Hok2).
    destruct (Hok1 eq_refl) as [pre1 ->]. destruct (Hok2 eq_refl) as [pre2 ->].
    exists pre1, pre2. rewrite Hnew. cbn [trace set_applying].
    by rewrite <- !app_assoc.
  - intros env'. rewrite ApplyFacts.run_apply_idle by done.
    destruct (RetryFacts.run_critical_section env' this (set_applying true w'))
      as (new' & Hnew' & (t1 & t2 & ok1 & -> & H1 & _)).
    rewrite Hnew'. cbn [trace set_applying].
    apply ApplyMore.retried_unit_shape in H1 as (Hlen & _).
    rewrite !length_app. lia.
Qed.

Lemma resolved_apply_has_applied_witness :
  let r := run (flaky 2) (applySchemaAndMetadata example_client) constructed in
  applyingSchemaAndMetadata constructed = false
  /\ r.1 = inr tt
  /\ applyingSchemaAndMetadata r.2 = false.
Proof.
  intros r.
  assert (Hr : r = (inr tt, r.2)) by (vm_compute; reflexivity).
  split_and!; [reflexivity | by rewrite Hr |].
  exact (proj1 (resolved_apply_has_applied (flaky 2) example_client
                  constructed r.2 eq_refl Hr)).
Defined.

(** X9. A call that finds the flag clear starts at least one and at most
    forty child processes, and each of them with one of the four command
    lines of the client. *)
Theorem apply_runs_between_one_and_forty_commands
    (env : Env) (this : HasuraClient) (w : World) :
  applyingSchemaAndMetadata w = false ->
  exists new,
    exec_log (trace (run env (applySchemaAndMetadata this) w).2)
    = exec_log (trace w) ++ new
    /\ (1 <= length new <= 40)%nat
    /\ Forall (fun x => x.1 ∈ command_lines this) new.
Proof.
  intros Hw. rewrite ApplyFacts.run_apply_idle by done.
  destruct (RetryFacts.run_critical_section env this (set_applying true w))
    as (new & Hnew & (t1 & t2 & ok1 & -> & H1 & H2)).
  exists (t1 ++ t2). split; [exact Hnew|].
  apply ApplyMore.retried_unit_shape in H1 as (Hlen1 & Hall1 & _).
  assert (Hin : forall c, c ∈ [migrate_down; migrate_up; metadata_clear; metadata_apply] ->
                          cmdline this c ∈ command_lines this).
  { intros c Hc. unfold command_lines. apply list_elem_of_fmap. eauto. }
  assert (H2' : (length t2 <= 20)%nat
                /\ Forall (fun x => x.1 ∈ command_lines this) t2).
  { destruct ok1.
    - apply ApplyMore.retried_unit_shape in H2 as (Hlen2 & Hall2 & _).
      split; [lia|]. eapply Forall_impl; [exact Hall2|].
      intros x [-> | ->]; apply Hin;
        repeat first [apply list_elem_of_here | apply list_elem_of_further].
    - destruct H2 as [-> _]. split; [cbn; lia | constructor]. }
  destruct H2' as [Hlen2 Hall2]. rewrite length_app. split; [lia|].
  apply Forall_app. split; [|done].
  eapply Forall_impl; [exact Hall1|].
  intros x [-> | ->]; apply Hin;
        repeat first [apply list_elem_of_here | apply list_elem_of_further].
Qed.

Lemma apply_runs_between_one_and_forty_commands_witness :
  let e := {| message := "connection refused" |} in
  applyingSchemaAndMetadata constructed = false
  /\ exists new,
      exec_log (trace (run (always_failing e)
                           (applySchemaAndMetadata example_client) constructed).2)
      = exec_log (trace constructed) ++ new
      /\ (1 <= length new <= 40)%nat
      /\ Forall (fun x => x.1 ∈ command_lines example_client) new.
Proof.
  intros e. split; [reflexivity|].
  exact (apply_runs_between_one_and_forty_commands (always_failing e)
           example_client constructed eq_refl).
Defined.

(** ** More of the schema *)

(** X11. Of the required types that the remote schema lacks,
    [buildHasuraSchema] names the first in the order [Block], [Cardano],
    [Epoch], [Transaction]; it has then made the introspection and nothing
    else: nothing is logged for a missing type. *)
Theorem buildHasuraSchema_names_first_missing_type
    (env : Env) (this : HasuraClient) (w : World) (remote : GraphQLSchema)
    (pre post : list string) (t : string) :
  introspection env (introspections w) = Introspected remote ->
  required_types = pre ++ t :: post ->
  Forall (fun x => is_Some (getType remote x)) pre ->
  getType remote t = None ->
  run env (buildHasuraSchema this) w
  = (inl (missing_type_error t), emit (EvIntrospect (Introspected remote)) w).
Proof.
  unfold introspections, required_types. intros Hr Hreq Hpre Ht.
  unfold buildHasuraSchema, wrapSchema, coreTypes. cbn [run]. rewrite Hr.
  destruct pre as [|? [|? [|? [|? ?]]]]; simplify_eq/=;
    repeat match goal with
           | H : Forall _ (_ :: _) |- _ => apply Forall_cons_1 in H as [[? ?] H]
           end;
    repeat match goal with
           | H : getType remote _ = _ |- _ => rewrite H
           end;
    try reflexivity.
  match goal with H : [] = ?l ++ _ |- _ => by destruct l end.
Qed.

Lemma buildHasuraSchema_names_first_missing_type_witness :
  let remote := {| typeMap := [("Block", OBJECT); ("Epoch", OBJECT)] |} in
  introspection (healthy remote) (introspections constructed) = Introspected remote
  /\ required_types = ["Block"] ++ "Cardano" :: ["Epoch"; "Transaction"]
  /\ getType remote "Cardano" = None
  /\ (run (healthy remote) (buildHasuraSchema example_client) constructed).1
     = inl (missing_type_error "Cardano").
Proof.
  intros remote. do 3 (split; [reflexivity|]).
  rewrite (buildHasuraSchema_names_first_missing_type (healthy remote)
             example_client constructed remote ["Block"] ["Epoch"; "Transaction"]
             "Cardano" eq_refl eq_refl); [reflexivity | | reflexivity].
  apply Forall_cons_2; [by eexists | apply Forall_nil_2].
Defined.

(** ** The initialisation *)

Module InitializeFacts.
Import ProcFacts ApplyFacts RetryFacts SchemaFacts.

(** What [buildHasuraSchema] returns has the types the client requires. *)
Lemma buildHasuraSchema_validates env this w schema :
  (run env (buildHasuraSchema this) w).1 = inr schema ->
  forall t, t ∈ required_types -> is_Some (getType schema t).
Proof.
  unfold buildHasuraSchema. cbn [run].
  destruct (introspection env _) as [e|e|remote]; try discriminate.
  rewrite run_check_types. cbn [fst]. unfold wrapSchema.
  destruct (head (missing remote coreTypes)) as [t0|] eqn:E; [discriminate|].
  intros [= <-] t Ht%coreTypes_required. apply head_None in E.
  destruct (getType remote t) as [kind|] eqn:Hk; [by eexists|].
  assert (Hin : t ∈ missing remote coreTypes) by (by apply list_elem_of_filter).
  rewrite E in Hin. by apply elem_of_nil in Hin.
Qed.

(** What the retrier returns, an attempt returned. *)
Lemma run_retry_from_success {A} env (input : nat -> proc A) operation
    remaining attempt w v :
  (run env (retry_from input (retry_options operation) remaining attempt) w).1
  = inr v ->
  exists n w0, (run env (input n) w0).1 = inr v.
Proof.
  revert attempt w.
  induction remaining as [|remaining IH]; intros attempt w;
    cbn [retry_from]; rewrite run_bind, run_try;
    destruct (run env (input attempt) w) as [[e|v0] w1] eqn:E; cbn [fst snd].
  - rewrite run_bind, run_onFailedAttempt. cbn [run fst]. discriminate.
  - cbn [run fst]. intros [= <-]. exists attempt, w. by rewrite E.
  - rewrite run_bind, run_onFailedAttempt. cbn [run]. apply IH.
  - cbn [run fst]. intros [= <-]. exists attempt, w. by rewrite E.
Qed.

Lemma run_initialize env this f1 f2 w :
  run env (initialize this f1 f2) w
  = match run env (applySchemaAndMetadata this) (emit (EvLog Info "Initializing") w) with
    | (inl e, w1) => (inl e, w1)
    | (inr _, w1) =>
        match run env (pRetry (fun _ => buildHasuraSchema this) schema_options) w1 with
        | (inl e, w2) => (inl e, w2)
        | (inr schema, w2) =>
            run env (f1;; f2;; Ret schema) (emit (EvLog Info "Initialized") w2)
        end
    end.
Proof.
  unfold initialize. cbn [run]. rewrite run_bind.
  destruct (run env (applySchemaAndMetadata this) _) as [[e|[]] w1]; [done|].
  rewrite run_bind. fold schema_options.
  by destruct (run env (pRetry _ schema_options) w1) as [[e|schema] w2].
Qed.

(** *** Counting introspections *)

Lemma introspections_emit ev w :
  introspections (emit ev w)
  = (introspections w + if ev is EvIntrospect _ then 1 else 0)%nat.
Proof.
  unfold introspections, emit. cbn [trace]. rewrite filter_app, length_app.
  f_equal. rewrite filter_cons. destruct ev; cbn [is_introspect];
    by (rewrite decide_True by done) || by (rewrite decide_False by auto).
Qed.

Lemma introspections_buildHasuraSchema env this w :
  introspections (run env (buildHasuraSchema this) w).2 = S (introspections w).
Proof.
  unfold buildHasuraSchema. cbn [run].
  destruct (introspection env _) as [e|e|remote]; cbn [run snd].
  - rewrite !introspections_emit. cbn. lia.
  - rewrite !introspections_emit. cbn. lia.
  - rewrite run_check_types. cbn [snd]. rewrite introspections_emit. cbn. lia.
Qed.

Lemma exec_log_buildHasuraSchema env this w :
  exec_log (trace (run env (buildHasuraSchema this) w).2) = exec_log (trace w).
Proof.
  unfold buildHasuraSchema. cbn [run].
  destruct (introspection env _) as [e|e|remote]; cbn [run snd].
  - rewrite !exec_log_emit. cbn. by rewrite !app_nil_r.
  - rewrite !exec_log_emit. cbn. by rewrite !app_nil_r.
  - rewrite run_check_types. cbn [snd]. rewrite exec_log_emit. cbn.
    by rewrite !app_nil_r.
Qed.

Lemma buildHasuraSchema_never_valid env this w :
  never_valid env ->
  exists t, t ∈ required_types
            /\ (run env (buildHasuraSchema this) w).1 = inl (missing_type_error t).
Proof.
  intros Hnv. destruct (Hnv (introspections w)) as (remote & t & Hr & Ht & Hmiss).
  unfold buildHasuraSchema. cbn [run]. unfold introspections in Hr. rewrite Hr.
  rewrite run_check_types. cbn [fst]. unfold wrapSchema.
  destruct (head (missing remote coreTypes)) as [t0|] eqn:E.
  - exists t0. split; [|done]. apply head_Some_elem_of in E.
    apply list_elem_of_filter in E as [_ E]. by apply coreTypes_required.
  - exfalso. apply head_None in E.
    assert (Hin : t ∈ missing remote coreTypes).
    { apply list_elem_of_filter. split; [done | by apply coreTypes_required]. }
    rewrite E in Hin. by apply elem_of_nil in Hin.
Qed.

Lemma failed_builds env this operation n count w w' e :
  never_valid env ->
  failed_attempts env (fun _ => buildHasuraSchema this) operation n count w w' e ->
  introspections w' = (introspections w + count)%nat
  /\ exec_log (trace w') = exec_log (trace w)
  /\ exists t, t ∈ required_types /\ e = missing_type_error t.
Proof.
  intros Hnv. induction 1 as [n w w1 e Hrun|n count w w1 e w' e' Hrun _ IH].
  - pose proof (introspections_buildHasuraSchema env this w) as Hi.
    pose proof (exec_log_buildHasuraSchema env this w) as Hx.
    destruct (buildHasuraSchema_never_valid env this w Hnv) as (t & Ht & He).
    rewrite Hrun in Hi, Hx, He. cbn [fst snd] in *.
    rewrite introspections_emit, exec_log_emit. cbn. rewrite app_nil_r.
    split_and!; [lia | done |]. exists t. split; [done | congruence].
  - pose proof (introspections_buildHasuraSchema env this w) as Hi.
    pose proof (exec_log_buildHasuraSchema env this w) as Hx.
    rewrite Hrun in Hi, Hx. cbn [fst snd] in *.
    destruct IH as (Hi' & Hx' & Ht). rewrite !introspections_emit in Hi'.
    rewrite !exec_log_emit in Hx'. cbn in Hi', Hx'. rewrite !app_nil_r in Hx'.
    split_and!; [lia | congruence | done].
Qed.

(** The last thing that ten failed attempts leave in the trace. *)
Lemma last_report {A} env (input : nat -> proc A) operation n count w w' e :
  failed_attempts env input operation n count w w' e ->
  last (trace w') = Some (EvReport operation (n + count - 1) 0 e).
Proof.
  induction 1 as [n w w1 e Hrun|n count w w1 e w' e' Hrun _ IH].
  - cbn [emit trace]. rewrite last_snoc. do 2 f_equal. lia.
  - rewrite IH. do 2 f_equal. lia.
Qed.

(** *** The trace only grows *)

Lemma run_trace {A} env (m : proc A) w :
  exists new, trace (run env m w).2 = trace w ++ new.
Proof.
  revert w.
  induction m as [a|e|k IH|b k IH|lv msg k IH|op n rest e k IH|c k IH|d k IH|k IH];
    intros w; cbn [run snd].
  1,2: exists []; by rewrite app_nil_r.
  - apply IH.
  - apply (IH (set_applying b w)).
  - destruct (IH (emit (EvLog lv msg) w)) as [new Hn].
    eexists. rewrite Hn. cbn. by rewrite <- app_assoc.
  - destruct (IH (emit (EvReport op n rest e) w)) as [new Hn].
    eexists. rewrite Hn. cbn. by rewrite <- app_assoc.
  - match goal with |- context [run env (k ?r) ?w2] =>
      destruct (IH r w2) as [new Hn] end.
    eexists. rewrite Hn. cbn. by rewrite <- app_assoc.
  - destruct (IH (emit (EvSleep d) w)) as [new Hn].
    eexists. rewrite Hn. cbn. by rewrite <- app_assoc.
  - match goal with |- context [run env (k ?r) ?w2] =>
      destruct (IH r w2) as [new Hn] end.
    eexists. rewrite Hn. cbn. by rewrite <- app_assoc.
Qed.

Lemma run_bind_trace {A B} env (m : proc A) (f : A -> proc B) w :
  exists new, trace (run env (m ≫= f) w).2 = trace (run env m w).2 ++ new.
Proof.
  rewrite run_bind. destruct (run env m w) as [[e|a] w1]; cbn [snd].
  - exists []. by rewrite app_nil_r.
  - apply run_trace.
Qed.

End InitializeFacts.

(** X12. Whatever the store and the fetchers do, the schema that a resolved
    [initialize] leaves in [this.schema] has every type the client
    requires. *)
Theorem initialized_schema_has_core_types
    (env : Env) (this : HasuraClient) (f1 f2 : proc unit) (w w' : World)
    (schema : GraphQLSchema) :
  run env (initialize this f1 f2) w = (inr schema, w') ->
  forall t, t ∈ required_types -> is_Some (getType schema t).
Proof.
  rewrite InitializeFacts.run_initialize.
  destruct (run env (applySchemaAndMetadata this) _) as [[e|[]] w1]; [discriminate|].
  unfold pRetry.
  destruct (run env (retry_from _ schema_options _ 1) w1)
    as [[e|s] w2] eqn:E; [discriminate|].
  intros Hrun.
  assert (Hs : s = schema).
  { rewrite ProcFacts.run_bind in Hrun.
    destruct (run env f1 _) as [[e1|[]] w3]; [discriminate|].
    rewrite ProcFacts.run_bind in Hrun.
    destruct (run env f2 w3) as [[e2|[]] w4]; [discriminate|].
    cbn [run] in Hrun. congruence. }
  subst s.
  destruct (InitializeFacts.run_retry_from_success env
              (fun _ => buildHasuraSchema this)
              "Fetching Hasura schema via introspection"
              (retries schema_options) 1 w1 schema)
    as (n & w0 & Hbuild).
  { exact (f_equal fst E). }
  by apply (InitializeFacts.buildHasuraSchema_validates env this w0).
Qed.

Lemma initialized_schema_has_core_types_witness :
  let r := run (healthy complete_schema)
               (initialize example_client (Ret tt) (Ret tt)) constructed in
  r.1 = inr complete_schema
  /\ forall t, t ∈ required_types -> is_Some (getType complete_schema t).
Proof.
  intros r.
  assert (Hr : r = (inr complete_schema, r.2)) by (vm_compute; reflexivity).
  split; [by rewrite Hr|].
  exact (initialized_schema_has_core_types (healthy complete_schema) example_client
           (Ret tt) (Ret tt) constructed r.2 complete_schema Hr).
Defined.

(** X13. A schema that lacks a required type is tried again like a failed
    introspection: when the apply step resolves and the store answers every
    introspection with a schema that lacks a required type, [initialize]
    makes exactly ten introspections and runs no further command; the last
    thing that happens is the report of the tenth failed attempt, with no
    retry left and the error that names a missing required type. Nothing
    follows it: [initialize] does not resolve, [Initialized] is not logged
    and no fetcher is started. *)
Theorem initialize_retries_invalid_schema
    (env : Env) (this : HasuraClient) (w : World) :
  never_valid env ->
  let applied :=
    run env (applySchemaAndMetadata this) (emit (EvLog Info "Initializing") w) in
  applied.1 = inr tt ->
  exists t w',
    t ∈ required_types
    /\ (forall f1 f2,
          (run env (initialize this f1 f2) w).2 = w'
          /\ succeeded (run env (initialize this f1 f2) w).1 = false)
    /\ introspections w' = (introspections applied.2 + 10)%nat
    /\ exec_log (trace w') = exec_log (trace applied.2)
    /\ last (trace w')
       = Some (EvReport "Fetching Hasura schema via introspection" 10 0
                        (missing_type_error t)).
Proof.
  intros Hnv applied Happlied.
  destruct (RetryFacts.run_failed_attempts env (fun _ => buildHasuraSchema this)
              "Fetching Hasura schema via introspection" 9 1 applied.2)
    as (e & w' & Hrun & Hfa).
  { intros n w0.
    destruct (InitializeFacts.buildHasuraSchema_never_valid env this w0 Hnv)
      as (t & _ & Ht). eauto. }
  pose proof (InitializeFacts.last_report _ _ _ _ _ _ _ _ Hfa) as Hlast.
  destruct (InitializeFacts.failed_builds _ _ _ _ _ _ _ _ Hnv Hfa)
    as (Hi & Hx & t & Ht & ->).
  exists t, w'. split_and!; try done.
  intros f1 f2. rewrite InitializeFacts.run_initialize. fold applied.
  destruct applied as [[e0|[]] w1]; [discriminate|]. cbn [snd] in Hrun.
  unfold pRetry, schema_options. cbn [retries retry_options].
  by rewrite Hrun.
Qed.

Lemma initialize_retries_invalid_schema_witness :
  let env := healthy schema_without_transaction in
  let r := run env (initialize example_client (Ret tt) (Ret tt)) constructed in
  never_valid env
  /\ introspections r.2 = 10%nat
  /\ last (trace r.2)
     = Some (EvReport "Fetching Hasura schema via introspection" 10 0
                      (missing_type_error "Transaction")).
Proof.
  intros env r.
  assert (Hnv : never_valid env).
  { intros n. exists schema_without_transaction, "Transaction".
    split_and!; [reflexivity | | reflexivity].
    unfold required_types. do 3 apply list_elem_of_further. apply list_elem_of_here. }
  split; [exact Hnv|].
  destruct (initialize_retries_invalid_schema env example_client constructed Hnv
              eq_refl) as (t & w' & Ht & Hrun & Hi & _ & Hlast).
  destruct (Hrun (Ret tt) (Ret tt)) as [Hw' _]. fold r in Hw'.
  rewrite Hw'. split; [exact Hi|].
  assert (Hr : last (trace r.2)
               = Some (EvReport "Fetching Hasura schema via introspection" 10 0
                                (missing_type_error "Transaction")))
    by (vm_compute; reflexivity).
  rewrite Hw' in Hr. exact Hr.
Defined.

(** X14. [initialize] does not wait for an apply that is in flight: when the
    flag is set, it logs that it initialises and goes straight to the
    introspection, without any command of its own before it. *)
Theorem initialize_during_apply_goes_to_introspection
    (env : Env) (this : HasuraClient) (f1 f2 : proc unit) (w : World) :
  applyingSchemaAndMetadata w = true ->
  exists rest,
    trace (run env (initialize this f1 f2) w).2
    = trace w ++ EvLog Info "Initializing"
        :: EvIntrospect (introspection env (introspections w)) :: rest.
Proof.
  intros Hw. unfold initialize. cbn [run].
  rewrite ProcFacts.run_bind, ApplyFacts.run_apply_applying by done.
  match goal with |- context [run env (?m ≫= ?f) ?w0] =>
    destruct (InitializeFacts.run_bind_trace env m f w0) as [new2 H2] end.
  rewrite H2. clear H2. unfold pRetry. cbn [retries retry_options retry_from].
  match goal with |- context [run env (?m ≫= ?f) ?w0] =>
    destruct (InitializeFacts.run_bind_trace env m f w0) as [new3 H3] end.
  rewrite H3. clear H3. rewrite ProcFacts.run_try. cbn [snd].
  unfold buildHasuraSchema. cbn [run].
  match goal with |- context [run env ?m (emit (EvIntrospect ?r) ?w0)] =>
    destruct (InitializeFacts.run_trace env m (emit (EvIntrospect r) w0))
      as [new4 H4] end.
  rewrite H4. cbn [trace emit]. exists (new4 ++ new3 ++ new2).
  rewrite <- !app_assoc. cbn [app]. unfold introspections.
  rewrite filter_app, length_app. cbn. rewrite Nat.add_0_r. reflexivity.
Qed.

Lemma initialize_during_apply_goes_to_introspection_witness :
  let w := set_applying true constructed in
  applyingSchemaAndMetadata w = true
  /\ exists rest,
      trace (run (healthy complete_schema)
                 (initialize example_client (Ret tt) (Ret tt)) w).2
      = trace w ++ EvLog Info "Initializing"
          :: EvIntrospect (Introspected complete_schema) :: rest.
Proof.
  intros w. split; [reflexivity|].
  exact (initialize_during_apply_goes_to_introspection (healthy complete_schema)
           example_client (Ret tt) (Ret tt) w eq_refl).
Defined.

Example order_of_balances :
  assetId ∘ asset <$> balances_of example_utxos_with_ada_token 2 = ["ada"; "A"]
  /\ first_occurrences ["ada"; "B"; "A"; "ada"; "A"; "C"] = ["ada"; "B"; "A"; "C"].
Proof. vm_compute. auto. Qed.
